(** * Electoral-roll OCR pipeline: block detection, field extraction,
      record validation and the translation cache.

    A shallow embedding of the parts of [modules/ocr.js],
    [modules/parser.js] and the translator module that [parser.js]
    requires, as far as they decide the testable properties of the
    specification, followed by the theorems that settle them.

    Conventions of the embedding.
    - A JavaScript string is the list of its UTF-16 code units
      ([jsstring]); every label of the program lies in the Basic
      Multilingual Plane, so one code unit is one character.
    - Pixel coordinates, ages and counters are integers ([Z]).  The two
      places where the program leaves the integers, [Math.floor (w * 0.02)]
      and [Math.floor (a / b)], are written with the integer quotient they
      compute on pixel sizes.
    - Recognition confidences are rationals ([Q]); only their order is
      used by the program.
    - [Map] and [Set] objects are stdpp's [gmap] and [gset]. *)

From Stdlib Require Import ZArith NArith QArith Lia List String Ascii.
From Stdlib Require Import DecimalString Sorting.Sorted.
From stdpp Require Import base decidable option list gmap.

Open Scope Z_scope.

(** ** JavaScript strings *)

Module Js.

Abbreviation jsstring := (list N).

(** An ASCII literal as a JavaScript string. *)
Definition lit (s : string) : jsstring :=
  List.map N_of_ascii (list_ascii_of_string s).

Definition inRange (lo hi c : N) : bool := (N.leb lo c && N.leb c hi)%bool.

(** [\d] *)
Definition isDigit (c : N) : bool := inRange 48 57 c.
(** [[A-Z]] *)
Definition isUpper (c : N) : bool := inRange 65 90 c.
(** [[a-z]] *)
Definition isLower (c : N) : bool := inRange 97 122 c.
(** [\w], that is [[A-Za-z0-9_]] *)
Definition isWordChar (c : N) : bool :=
  (isUpper c || isLower c || isDigit c || N.eqb c 95)%bool.
(** [[\u0B00-\u0B7F]], the Odia block *)
Definition isOdia (c : N) : bool := inRange 2816 2943 c.

(** [\s], which is also what [trim] strips: the white space and line
    terminator code points of ECMAScript. *)
Definition isSpace (c : N) : bool :=
  (inRange 9 13 c || N.eqb c 32 || N.eqb c 160 || N.eqb c 5760
   || inRange 8192 8202 c || N.eqb c 8232 || N.eqb c 8233
   || N.eqb c 8239 || N.eqb c 8287 || N.eqb c 12288 || N.eqb c 65279)%bool.

(** Value of a decimal digit. *)
Definition digitVal (c : N) : Z := Z.of_N c - 48.

(** The decimal rendering of a number inside a template literal. *)
Definition ofZ (n : Z) : jsstring := lit (NilZero.string_of_int (Z.to_int n)).

Fixpoint trimStart (s : jsstring) : jsstring :=
  match s with
  | c :: s' => if isSpace c then trimStart s' else s
  | [] => []
  end.

Definition trimEnd (s : jsstring) : jsstring := rev (trimStart (rev s)).

(** [String.prototype.trim] *)
Definition trim (s : jsstring) : jsstring := trimEnd (trimStart s).

(** [s.startsWith(p)] *)
Fixpoint startsWith (p s : jsstring) : bool :=
  match p, s with
  | [], _ => true
  | a :: p', b :: s' => (N.eqb a b && startsWith p' s')%bool
  | _ :: _, [] => false
  end.

(** [s.includes(p)] *)
Fixpoint includes (s p : jsstring) : bool :=
  (startsWith p s ||
   match s with
   | [] => false
   | _ :: s' => includes s' p
   end)%bool.

(** The ASCII part of [toUpperCase]. *)
Definition upperChar (c : N) : N := if isLower c then (c - 32)%N else c.

(** [for (let i = lo; i < hi; i++) body], threading the loop state. *)
Definition forRange {S : Type} (lo hi : Z) (body : Z -> S -> S) (s : S) : S :=
  fold_left (fun acc i => body i acc) (seqZ lo (hi - lo)) s.

End Js.

Import Js.

(** ** [modules/ocr.js] *)

Module Ocr.

Record bbox := { x0 : Z; y0 : Z; x1 : Z; y1 : Z }.

(** A recognised word as the recognition worker returns it. *)
Record word := { text : jsstring; wconfidence : Q; wbbox : bbox }.

(** A recognised text line. *)
Record line := { ltext : jsstring; lbbox : bbox }.

Record boundary := { x : Z; y : Z; width : Z; height : Z }.

(** [referenceWord] is the anchor word for the anchor strategy and a
    bare [{ bbox: { y0, x0 } }] for the two fallbacks. *)
Inductive refword :=
| RefWord (w : word)
| RefPoint (ry0 rx0 : Z).

Record block := {
  voterId : jsstring;
  blockIndex : Z;
  bboundary : boundary;
  referenceWord : refword;
  confidence : Q
}.

(** *** Grid fallback: [detectBlocksByGrid] *)

Definition cols : Z := 3.
Definition rowHeight : Z := 200.

(** [Math.floor(width * 0.02)] *)
Definition gridMargin (width : Z) : Z := (width * 2) / 100.

(** State of the two nested loops: the [blocks] array and [blockIndex]. *)
Abbreviation gridState := (list block * Z)%type.

Definition gridCell (width height row col : Z) (st : gridState) : gridState :=
  let margin := gridMargin width in
  let colWidth := (width - margin * 4) / cols in
  let x := margin + col * (colWidth + margin) in
  let y := margin + row * rowHeight in
  if y + rowHeight >? height then st
  else
    let '(blocks, blockIndex) := st in
    (blocks ++ [ {| voterId := lit "GRID_" ++ ofZ (blockIndex + 1);
                    blockIndex := blockIndex;
                    bboundary := {| x := x; y := y;
                                    width := colWidth; height := rowHeight |};
                    referenceWord := RefPoint y x;
                    confidence := 70 |} ],
     blockIndex + 1).

Definition gridRows (width height : Z) : Z :=
  (height - gridMargin width * 2) / rowHeight.

(** [width] and [height] are the image metadata. *)
Definition detectBlocksByGrid (width height : Z) : list block :=
  fst (forRange 0 (gridRows width height)
         (fun row => forRange 0 cols (gridCell width height row))
         ([], 0)).

(** *** Identifier patterns *)

Fixpoint countPrefix (p : N -> bool) (s : jsstring) : nat :=
  match s with
  | c :: s' => if p c then S (countPrefix p s') else O
  | [] => O
  end.

(** [[A-Z]{3}\d{7}] tried at the head of [s]: the matched text. *)
Definition strictAt (s : jsstring) : option jsstring :=
  let letters := take 3 s in
  let digits := take 7 (drop 3 s) in
  if ((length letters =? 3)%nat && forallb isUpper letters
      && (length digits =? 7)%nat && forallb isDigit digits)%bool
  then Some (letters ++ digits) else None.

(** [[A-Z]{2,4}\d{6,8}] tried at the head of [s].  Both quantifiers are
    greedy; giving a letter back leaves a letter where a digit is
    required, so the only candidate is the longest run of at most four
    letters. *)
Definition relaxedAt (s : jsstring) : option jsstring :=
  let m := Nat.min 4 (countPrefix isUpper s) in
  let d := Nat.min 8 (countPrefix isDigit (drop m s)) in
  if ((2 <=? m)%nat && (6 <=? d)%nat)%bool then Some (take (m + d) s) else None.

(** Leftmost match of a pattern given by its matcher at a position. *)
Fixpoint firstMatch (at_ : jsstring -> option jsstring) (s : jsstring)
  : option jsstring :=
  match at_ s with
  | Some r => Some r
  | None => match s with
            | [] => None
            | _ :: s' => firstMatch at_ s'
            end
  end.

(** [/[A-Z]{3}\d{7}/.test(s)] *)
Definition voterIdPattern (s : jsstring) : bool :=
  bool_decide (is_Some (firstMatch strictAt s)).

(** [/[A-Z]{2,4}\d{6,8}/.test(s)] *)
Definition relaxedPattern (s : jsstring) : bool :=
  bool_decide (is_Some (firstMatch relaxedAt s)).

(** [s.match(/[A-Z]{3}\d{7}|[A-Z]{2,4}\d{6,8}/)]: at each position the
    strict alternative is tried before the relaxed one. *)
Definition matchAnyId (s : jsstring) : option jsstring :=
  firstMatch (fun t => match strictAt t with
                       | Some r => Some r
                       | None => relaxedAt t
                       end) s.

(** *** Structural fallback: [detectBlocksByVisualStructure] *)

Record group := {
  glines : list line;
  minY : Z; maxY : Z; minX : Z; maxX : Z
}.

Definition spaceThreshold : Z := 40.

Definition freshGroup (l : line) : group :=
  {| glines := [l];
     minY := y0 (lbbox l); maxY := y1 (lbbox l);
     minX := x0 (lbbox l); maxX := x1 (lbbox l) |}.

Definition joinGroup (g : group) (l : line) : group :=
  {| glines := glines g ++ [l];
     minY := minY g;
     maxY := Z.max (maxY g) (y1 (lbbox l));
     minX := Z.min (minX g) (x0 (lbbox l));
     maxX := Z.max (maxX g) (x1 (lbbox l)) |}.

(** One iteration of the grouping loop over [(blocks, currentBlock)]. *)
Definition groupStep (st : list group * option group) (l : line)
  : list group * option group :=
  let '(blocks, currentBlock) := st in
  let lineY := y0 (lbbox l) in
  match currentBlock with
  | None => (blocks, Some (freshGroup l))
  | Some cb =>
      let gap := lineY - maxY cb in
      if gap <? spaceThreshold then (blocks, Some (joinGroup cb l))
      else (blocks ++ [cb], Some (freshGroup l))
  end.

Definition groupLines (lines : list line) : list group :=
  let '(blocks, currentBlock) := fold_left groupStep lines ([], None) in
  match currentBlock with
  | Some cb => blocks ++ [cb]
  | None => blocks
  end.

(** [parts.join(sep)] *)
Fixpoint join (sep : jsstring) (parts : list jsstring) : jsstring :=
  match parts with
  | [] => []
  | [p] => p
  | p :: ps => p ++ sep ++ join sep ps
  end.

Definition groupToBlock (index : Z) (g : group) : block :=
  let text := join (lit " ") (List.map ltext (glines g)) in
  {| voterId := match matchAnyId text with
                | Some m => m
                | None => lit "BLOCK_" ++ ofZ (index + 1)
                end;
     blockIndex := index;
     bboundary := {| x := minX g; y := minY g;
                     width := maxX g - minX g; height := maxY g - minY g |};
     referenceWord := RefPoint (minY g) (minX g);
     confidence := 75 |}.

(** [arr.map((e, index) => f(index, e))] *)
Fixpoint mapi {A B : Type} (f : Z -> A -> B) (i : Z) (l : list A) : list B :=
  match l with
  | [] => []
  | a :: l' => f i a :: mapi f (i + 1) l'
  end.

Definition detectBlocksByVisualStructure (lines : list line) : list block :=
  match lines with
  | [] => []
  | _ => mapi groupToBlock 0 (groupLines lines)
  end.

(** *** Boundary calculator: [calculateBlockBoundary] *)

Definition blockHeight : Z := 150.
Definition margin : Z := 10.

(** [Math.min(...xs, a)] and [Math.max(...xs, a)] *)
Definition minOf (xs : list Z) (a : Z) : Z := fold_right Z.min a xs.
Definition maxOf (xs : list Z) (a : Z) : Z := fold_right Z.max a xs.

Definition calculateBlockBoundary (currentVoterWord : word)
    (nextVoterWord : option word) (allWords : list word) (imageHeight : Z)
  : boundary :=
  let currentY := y0 (wbbox currentVoterWord) in
  let rowWords :=
    List.filter (fun w => Z.abs (y0 (wbbox w) - currentY) <? 30) allWords in
  let minX := minOf (List.map (fun w => x0 (wbbox w)) rowWords)
                    (x0 (wbbox currentVoterWord)) in
  let maxX := maxOf (List.map (fun w => x1 (wbbox w)) rowWords)
                    (x1 (wbbox currentVoterWord)) in
  let bottomY :=
    match nextVoterWord with
    | Some next => Z.min (y0 (wbbox next) - margin) (currentY + blockHeight)
    | None => Z.min (currentY + blockHeight) imageHeight
    end in
  let blockWords :=
    List.filter (fun w => (y0 (wbbox w) >=? currentY - margin)
                          && (y0 (wbbox w) <=? bottomY))%bool allWords in
  let bottomY :=
    match List.map (fun w => y1 (wbbox w)) blockWords with
    | [] => bottomY
    | m :: ms => let actualMaxY := maxOf ms m in
                 Z.min (actualMaxY + margin) bottomY
    end in
  {| x := Z.max 0 (minX - margin);
     y := Z.max 0 (currentY - margin);
     width := (maxX - minX) + 2 * margin;
     height := (bottomY - currentY) + margin |}.

(** *** Anchor detector: [findVoterBlockBoundaries] *)

(** The recognition result of a page; [dheight] is [data.height]. *)
Record data := { words : list word; lines : list line; dheight : Z }.

Record candidate := { cword : word; cvoterId : jsstring; cconfidence : Q }.

Section AnchorDetector.

(** [String.prototype.toUpperCase] on arbitrary text follows the
    Unicode case tables; the anchor detector is modelled for any such
    function. *)
Variable toUpperCase : jsstring -> jsstring.

(** [t.replace(/\s+/g, '').replace(/[^A-Z0-9]/gi, '').toUpperCase()] *)
Definition cleanText (t : jsstring) : jsstring :=
  toUpperCase
    (List.filter (fun c => isUpper c || isLower c || isDigit c)%bool
       (List.filter (fun c => negb (isSpace c)) t)).

(** The body of the loop over the words. *)
Definition wordCandidates (w : word) : list candidate :=
  let clean := cleanText (text w) in
  if voterIdPattern clean then
    [ {| cword := w; cvoterId := clean; cconfidence := wconfidence w |} ]
  else if relaxedPattern clean then
    [ {| cword := w; cvoterId := clean;
         cconfidence := (wconfidence w * (8 # 10))%Q |} ]
  else [].

(** [(a.text + b.text).replace(/\s+/g, '').toUpperCase()] *)
Definition combinedText (a b : word) : jsstring :=
  toUpperCase (List.filter (fun c => negb (isSpace c)) (text a ++ text b)).

(** The loop over the adjacent pairs [words[i]], [words[i + 1]]. *)
Fixpoint pairCandidates (ws : list word) : list candidate :=
  match ws with
  | a :: ((b :: _) as ws') =>
      let combined := combinedText a b in
      (if voterIdPattern combined then
         let avgConfidence := ((wconfidence a + wconfidence b) / 2)%Q in
         [ {| cword := a; cvoterId := combined;
              cconfidence := (avgConfidence * (9 # 10))%Q |} ]
       else []) ++ pairCandidates ws'
  | _ => []
  end.

Definition voterIdCandidates (ws : list word) : list candidate :=
  flat_map wordCandidates ws ++ pairCandidates ws.

(** [sort((a, b) => b.confidence - a.confidence)]: the sort is stable,
    so an element goes in front of the first one it does not have to
    follow. *)
Fixpoint insertByConfidence (c : candidate) (cs : list candidate)
  : list candidate :=
  match cs with
  | [] => [c]
  | d :: cs' =>
      if Qle_bool (cconfidence d) (cconfidence c) then c :: d :: cs'
      else d :: insertByConfidence c cs'
  end.

Definition sortByConfidence (cs : list candidate) : list candidate :=
  fold_right insertByConfidence [] cs.

(** The [filter] over the [seen] set. *)
Fixpoint uniqueBy (seen : gset jsstring) (cs : list candidate)
  : list candidate :=
  match cs with
  | [] => []
  | c :: cs' =>
      if bool_decide (cvoterId c ∈ seen) then uniqueBy seen cs'
      else c :: uniqueBy ({[ cvoterId c ]} ∪ seen) cs'
  end.

Definition uniqueVoterIds (ws : list word) : list candidate :=
  uniqueBy ∅ (sortByConfidence (voterIdCandidates ws)).

(** The final loop: candidate [i] is bounded by candidate [i + 1]. *)
Fixpoint buildBlocks (i : Z) (cs : list candidate) (allWords : list word)
    (imageHeight : Z) : list block :=
  match cs with
  | [] => []
  | c :: rest =>
      {| voterId := cvoterId c;
         blockIndex := i;
         bboundary := calculateBlockBoundary (cword c)
                        (option_map cword (head rest)) allWords imageHeight;
         referenceWord := RefWord (cword c);
         confidence := cconfidence c |}
      :: buildBlocks (i + 1) rest allWords imageHeight
  end.

Definition findVoterBlockBoundaries (d : data) : list block :=
  buildBlocks 0 (uniqueVoterIds (words d)) (words d) (dheight d).

End AnchorDetector.

(** [toUpperCase] on text made of ASCII and Odia code units. *)
Definition asciiUpperCase (s : jsstring) : jsstring := List.map upperChar s.

(** *** Field extraction: [extractKeyValues] *)

(** The table of fields.  The first entry of a row is the name of the
    field in the result and, as in the source, also one of its labels.
    The Odia labels are given by their code units. *)
Definition keys : list (list jsstring) :=
  [ [ lit "name"; [0xb28; 0xb3e; 0xb2e]%N; lit "Name" ];
    [ lit "age"; [0xb2c; 0xb5f; 0xb38]%N; lit "Age" ];
    [ lit "gender"; [0xb32; 0xb3f; 0xb17; 0xb02]%N;
      [0xb32; 0xb3f; 0xb02; 0xb17]%N; lit "Gender" ];
    [ lit "houseNo"; [0xb18; 0xb30; 0x20; 0xb28; 0xb02]%N; lit "House No";
      [0xb18; 0xb30; 0x20; 0xb28; 0xb2e; 0xb4d; 0xb2c; 0xb30]%N ];
    [ lit "guardianName";
      [0xb38; 0xb4d; 0xb2c; 0xb3e; 0xb2e; 0xb40; 0xb19; 0xb4d; 0xb15; 0x20;
       0xb28; 0xb3e; 0xb2e]%N;
      lit "Husband Name";
      [0xb38; 0xb4d; 0xb71; 0xb3e; 0xb2e; 0xb40]%N;
      lit "Husband";
      [0xb2a; 0xb3f; 0xb24; 0xb3e; 0xb19; 0xb4d; 0xb15; 0x20;
       0xb28; 0xb3e; 0xb2e]%N;
      lit "Father Name";
      [0xb2e; 0xb3e; 0xb24; 0xb3e; 0xb19; 0xb4d; 0xb15; 0x20;
       0xb28; 0xb3e; 0xb2e]%N;
      lit "Mother Name" ] ].

(** [keys.flatMap(...)] *)
Definition allKeyAlternatives : list jsstring := concat keys.

(** Two code units are equal under the [i] flag.  No label holds a
    character with a non-ASCII case variant, so only the ASCII letters
    fold. *)
Definition ciEq (a b : N) : bool := N.eqb (upperChar a) (upperChar b).

(** A literal label at the head of [s]: what follows it. *)
Fixpoint ciStrip (k s : jsstring) : option jsstring :=
  match k, s with
  | [], _ => Some s
  | a :: k', b :: s' => if ciEq a b then ciStrip k' s' else None
  | _ :: _, [] => None
  end.

(** [\s*:] at the head of [s]: what follows the colon.  The star is
    greedy and a colon is not white space, so nothing is gained by
    giving white space back. *)
Definition colonNext (s : jsstring) : option jsstring :=
  match trimStart s with
  | c :: r => if N.eqb c 58 then Some r else None
  | [] => None
  end.

(** [(?:k1|k2|...)\s*:] at the head of [s]: what follows the colon, for
    each alternative that matches, in the order of the alternation. *)
Definition keyColonAt (alts : list jsstring) (s : jsstring) : list jsstring :=
  omap (fun k => match ciStrip k s with
                 | Some r => colonNext r
                 | None => None
                 end) alts.

(** [\s*(?:k1|k2|...)\s*:] at the head of [s]. *)
Fixpoint spacesThenKey (alts : list jsstring) (s : jsstring) : bool :=
  (negb (bool_decide (keyColonAt alts s = []))
   || match s with
      | c :: s' => isSpace c && spacesThenKey alts s'
      | [] => false
      end)%bool.

(** The lookahead [(?=\s*(?:...)\s*:|$)]; without the [m] flag [$] is
    the end of the input. *)
Definition lookahead (alts : list jsstring) (s : jsstring) : bool :=
  (spacesThenKey alts s || bool_decide (s = []))%bool.

(** [(.+?)] followed by the lookahead: the capture grows one code unit
    at a time (with the [s] flag the dot takes any of them) until the
    lookahead holds. *)
Fixpoint lazyCapture (alts : list jsstring) (acc rest : jsstring) : jsstring :=
  if lookahead alts rest then acc
  else match rest with
       | c :: rest' => lazyCapture alts (acc ++ [c]) rest'
       | [] => acc
       end.

(** [\s*(.+?)(?=...)] after the colon.  The white space is taken
    greedily; when nothing is left for the group, the last white space
    is given back to it, and the end of input closes the match. *)
Definition captureFrom (alts : list jsstring) (s : jsstring) : option jsstring :=
  match trimStart s with
  | c :: r => Some (lazyCapture alts [c] r)
  | [] => match last s with
          | Some c => Some [c]
          | None => None
          end
  end.

(** The whole pattern tried at the head of [s]: group 1. *)
Definition fieldAt (key : list jsstring) (s : jsstring) : option jsstring :=
  head (omap (captureFrom allKeyAlternatives) (keyColonAt key s)).

(** [value.split(/\n+|\s{3,}/)[0]] *)
Fixpoint firstPart (s : jsstring) : jsstring :=
  match s with
  | [] => []
  | c :: s' =>
      if (N.eqb c 10
          || ((length (take 3 s) =? 3)%nat && forallb isSpace (take 3 s)))%bool
      then []
      else c :: firstPart s'
  end.

(** The body of [keys.forEach].  The search for [matchedKey] does not
    reach the result ([keyName] is [key[0]]) and is left out. *)
Definition extractField (inputText : jsstring)
    (result : gmap jsstring jsstring) (key : list jsstring)
  : gmap jsstring jsstring :=
  let keyName := hd [] key in
  match firstMatch (fieldAt key) inputText with
  | Some group1 =>
      let value := trim group1 in
      let value := trim (firstPart value) in
      <[ keyName := value ]> result
  | None => result
  end.

Definition extractKeyValues (inputText : jsstring) : gmap jsstring jsstring :=
  fold_left (extractField inputText) keys ∅.

End Ocr.

(** ** [modules/parser.js] *)

Module Parser.

Definition labelWords : list jsstring :=
  [ [0xb18; 0xb30]%N; [0xb18; 0xb30; 0xb3e]%N; [0xb2e; 0xb3f; 0xb30]%N;
    [0xb30; 0xb3e; 0xb2e; 0xb3e]%N; [0xb39; 0xb3e; 0xb07]%N;
    [0xb18; 0xb28]%N; [0xb18; 0xb28; 0xb3e]%N; [0xb18; 0xb2e; 0xb3e]%N;
    [0xb28; 0xb02]%N; [0xb28; 0xb3e; 0xb2e]%N;
    [0xb2a; 0xb3f; 0xb24; 0xb3e]%N; [0xb2e; 0xb3e; 0xb24; 0xb3e]%N;
    [0xb38; 0xb4d; 0xb71; 0xb3e; 0xb2e; 0xb40]%N; [0xb2c; 0xb5f; 0xb38]%N;
    lit "name"; lit "father"; lit "mother" ].

Record name := { odia : jsstring; english : jsstring }.

Inductive relationType := Father | Mother | Husband.
Inductive genderType := Male | Female.

(** The record built by [parseVoterBlock] and [parseTextChunk]; the
    address, which no check reads, is reduced to the house number. *)
Record voter := {
  serialNo : Z;
  voterId : jsstring;
  vname : name;
  relation : relationType * name;
  houseNo : jsstring;
  age : Z;
  gender : genderType
}.

(** *** [extractAge] *)

Definition notWord (c : option N) : bool :=
  match c with
  | Some c => negb (isWordChar c)
  | None => true
  end.

(** [text.match(/\b(\d{2})\b/g)]: the matches from left to right.
    [prev] is the code unit before [s].  A digit is a word character,
    so the boundaries ask for a non-word neighbour (or none) on each
    side. *)
Fixpoint ageMatchesFrom (prev : option N) (s : jsstring) : list jsstring :=
  match s with
  | a :: ((b :: rest) as s') =>
      if (isDigit a && isDigit b && notWord prev && notWord (head rest))%bool
      then [a; b] :: ageMatchesFrom (Some b) rest
      else ageMatchesFrom (Some a) s'
  | _ => []
  end.

Definition ageMatches (text : jsstring) : list jsstring :=
  ageMatchesFrom None text.

(** [parseInt] on a string of decimal digits. *)
Definition parseInt (s : jsstring) : Z :=
  fold_left (fun n c => 10 * n + digitVal c) s 0.

(** The loop over the matches, with its early [return]. *)
Fixpoint firstAge (ms : list jsstring) : option Z :=
  match ms with
  | [] => None
  | m :: ms' =>
      let age := parseInt m in
      if ((age >=? 18) && (age <=? 120))%bool then Some age else firstAge ms'
  end.

Definition extractAge (text : jsstring) : Z :=
  match firstAge (ageMatches text) with
  | Some age => age
  | None => 25
  end.

(** *** [isValidVoter] *)

(** [voter.age >= 18 && voter.age <= 120] *)
Definition ageClause (v : voter) : bool :=
  ((age v >=? 18) && (age v <=? 120))%bool.

(** The truth value of the conjunction; a string is truthy when it is
    not empty, a match result when it is not [null]. *)
Definition isValidVoter (v : voter) : bool :=
  (negb (bool_decide (voterId v = []))
   && Ocr.voterIdPattern (voterId v)
   && (2 <? Z.of_nat (length (odia (vname v))))
   && negb (existsb (fun label => includes (odia (vname v)) label) labelWords)
   && ageClause v)%bool.

End Parser.

(** ** The translator module ([require('./translator')]) *)

Module Translator.

(** The fields of the [Translator] object. *)
Record translator := {
  cache : gmap jsstring jsstring;
  lastRequestTime : Z
}.

Definition minRequestInterval : Z := 300.

(** What the object does not own: the clock read by [Date.now()] and
    the requests sent to the translation service so far. *)
Record world := { clock : Z; requests : list jsstring }.

(** An answer of the service: the translation, or [None] when the call
    throws, and the time the call took. *)
Record response := { outcome : option jsstring; elapsed : Z }.

(** The errors that leave an [async] method. *)
Inductive exn := TypeError.

(** How an awaited call settles: it resolves with a value, or it rejects
    with the error that was thrown. *)
Inductive completion (A : Type) : Type :=
| Resolved (a : A)
| Rejected (e : exn).

Arguments Resolved {A} a.
Arguments Rejected {A} e.

Definition isOdiaText (text : jsstring) : bool := existsb isOdia text.

(** [replace(/\s+/g, ' ')]; [inRun] tells that the previous code unit
    was white space. *)
Fixpoint collapseSpaces (inRun : bool) (s : jsstring) : jsstring :=
  match s with
  | [] => []
  | c :: s' =>
      if isSpace c then
        if inRun then collapseSpaces true s' else 32%N :: collapseSpaces true s'
      else c :: collapseSpaces false s'
  end.

(** The class [[\w\s\u0B00-\u0B7F-]] whose complement is removed. *)
Definition kept (c : N) : bool :=
  (isWordChar c || isSpace c || isOdia c || N.eqb c 45)%bool.

Definition normalizeText (text : jsstring) : jsstring :=
  List.filter kept (collapseSpaces false (trim text)).

(** The transliteration table of [romanizeOdia]. *)
Definition romanMap : list (N * jsstring) :=
  [ (2837, lit "ka"); (2838, lit "kha"); (2839, lit "ga");
    (2840, lit "gha"); (2841, lit "nga"); (2842, lit "cha");
    (2843, lit "chha"); (2844, lit "ja"); (2845, lit "jha");
    (2846, lit "nya"); (2847, lit "ta"); (2848, lit "tha");
    (2849, lit "da"); (2850, lit "dha"); (2851, lit "na");
    (2852, lit "ta"); (2853, lit "tha"); (2854, lit "da");
    (2855, lit "dha"); (2856, lit "na"); (2858, lit "pa");
    (2859, lit "pha"); (2860, lit "ba"); (2861, lit "bha");
    (2862, lit "ma"); (2863, lit "ya"); (2864, lit "ra");
    (2866, lit "la"); (2867, lit "la"); (2870, lit "sha");
    (2871, lit "sha"); (2872, lit "sa"); (2873, lit "ha");
    (2878, lit "a"); (2879, lit "i"); (2880, lit "i"); (2881, lit "u");
    (2882, lit "u"); (2887, lit "e"); (2888, lit "ai"); (2891, lit "o");
    (2892, lit "au"); (2818, lit "m"); (2819, lit "h"); (2893, []);
    (2821, lit "a"); (2822, lit "a"); (2823, lit "i"); (2824, lit "i");
    (2825, lit "u"); (2826, lit "u"); (2831, lit "e"); (2832, lit "ai");
    (2835, lit "o"); (2836, lit "au") ]%N.

(** [map[char] || char]: an empty entry is falsy and leaves the
    character in place. *)
Definition romanChar (c : N) : jsstring :=
  match List.find (fun e => N.eqb (fst e) c) romanMap with
  | Some (_, r) => match r with
                   | [] => [c]
                   | _ :: _ => r
                   end
  | None => [c]
  end.

Definition lowerChar (c : N) : N := if isUpper c then (c + 32)%N else c.

(** [text.split(' ')] *)
Fixpoint splitOnSpace (cur : jsstring) (s : jsstring) : list jsstring :=
  match s with
  | [] => [cur]
  | c :: s' =>
      if N.eqb c 32 then cur :: splitOnSpace [] s'
      else splitOnSpace (cur ++ [c]) s'
  end.

(** [capitalizeWords].  Its argument is the transliteration of a
    normalized text, made of ASCII and Odia code units, on which the
    case conversions are the ASCII ones. *)
Definition capitalizeWords (text : jsstring) : jsstring :=
  match text with
  | [] => []
  | _ =>
      Ocr.join (lit " ")
        (List.map (fun w => match w with
                            | [] => []
                            | c :: r => upperChar c :: r
                            end)
           (splitOnSpace [] (List.map lowerChar text)))
  end.

Definition romanizeOdia (text : jsstring) : jsstring :=
  capitalizeWords (flat_map romanChar text).

Section Service.

(** The translation service behind [translate(normalizedText, ...)]:
    its answer may depend on everything that was asked before. *)
Variable translate : list jsstring -> jsstring -> response.

(** [delay(ms)] *)
Definition delay (ms : Z) (w : world) : world :=
  {| clock := clock w + ms; requests := requests w |}.

(** [translate.engine = 'google'], the second statement of
    [translateToEnglish], where [translate] is what
    [await import('translate')] resolved to: a module namespace object.
    Such an object is not extensible and none of its properties can be
    written; its [[Set]] answers false for every key, and in strict code
    (a class body is strict code) the assignment then throws a
    [TypeError]. *)
Definition assignEngine : completion unit := Rejected TypeError.

(** [translateToEnglish]: how the call settles, the object and the world
    after the call.  The error of the assignment is thrown outside the
    [try] block and rejects the call; the statements behind it are the
    rest of the method as it is written. *)
Definition translateToEnglish (text : jsstring) (t : translator) (w : world)
  : completion jsstring * translator * world :=
  match assignEngine with
  | Rejected e => (Rejected e, t, w)
  | Resolved _ =>
      if (bool_decide (text = []) || bool_decide (trim text = []))%bool
      then (Resolved [], t, w)
      else
        let normalizedText := normalizeText text in
        match cache t !! normalizedText with
        | Some cached => (Resolved cached, t, w)
        | None =>
            if negb (isOdiaText normalizedText)
            then (Resolved normalizedText, t, w)
            else if (Z.of_nat (length normalizedText) <? 3)
            then (Resolved normalizedText, t, w)
            else
              let now := clock w in
              let timeSinceLastRequest := now - lastRequestTime t in
              let w :=
                if timeSinceLastRequest <? minRequestInterval
                then delay (minRequestInterval - timeSinceLastRequest) w
                else w in
              let r := translate (requests w) normalizedText in
              let w := {| clock := clock w + elapsed r;
                          requests := requests w ++ [normalizedText] |} in
              match outcome r with
              | Some result =>
                  (Resolved result,
                   {| cache := <[ normalizedText := result ]> (cache t);
                      lastRequestTime := clock w |},
                   w)
              | None => (Resolved (romanizeOdia normalizedText), t, w)
              end
        end
  end.

(** Two calls, the second made after the first has settled. *)
Definition translateTwice (x1 x2 : jsstring) (t : translator) (w : world)
  : completion jsstring * translator * world :=
  let '(_, t1, w1) := translateToEnglish x1 t w in
  translateToEnglish x2 t1 w1.

End Service.

End Translator.

(** * Vocabulary of the properties *)

Import Ocr Parser Translator.

(** A text holds three capital letters followed by seven digits: what a
    match of [/[A-Z]{3}\d{7}/] means. *)
Definition containsStrictId (s : jsstring) : Prop :=
  exists pre letters digits post,
    s = pre ++ letters ++ digits ++ post
    /\ length letters = 3%nat /\ forallb isUpper letters = true
    /\ length digits = 7%nat /\ forallb isDigit digits = true.

(** A text is three capital letters followed by seven digits and nothing
    else: the strict identifier grammar, 3 letters + 7 digits. *)
Definition isStrictId (s : jsstring) : Prop :=
  exists letters digits,
    s = letters ++ digits
    /\ length letters = 3%nat /\ forallb isUpper letters = true
    /\ length digits = 7%nat /\ forallb isDigit digits = true.

(** [{ ...v, age: a }] *)
Definition withAge (v : voter) (a : Z) : voter :=
  {| serialNo := serialNo v; voterId := voterId v; vname := vname v;
     relation := relation v; houseNo := houseNo v; age := a;
     gender := gender v |}.

Definition inAgeRange (v : Z) : Prop := 18 <= v <= 120.

(** Two digits of value [v] stand at index [k] of [s] with no word
    character on either side; [prev] is the code unit before [s]. *)
Definition tokenAfter (prev : option N) (s : jsstring) (k : nat) (v : Z) : Prop :=
  exists a b,
    s !! k = Some a /\ s !! S k = Some b
    /\ isDigit a = true /\ isDigit b = true
    /\ v = 10 * digitVal a + digitVal b
    /\ notWord (match k with O => prev | S j => s !! j end) = true
    /\ notWord (s !! S (S k)) = true.

(** A standalone two-digit token of a whole text. *)
Definition standaloneTwoDigitAt (text : jsstring) (i : nat) (v : Z) : Prop :=
  tokenAfter None text i v.

(** The order the confidence sort establishes. *)
Definition before (a b : candidate) : Prop :=
  (cconfidence b <= cconfidence a)%Q.

(** * Sample inputs *)

(** Three identifiers one under the other; the middle one is read with
    the lowest confidence. *)
Definition wordA : word :=
  {| text := lit "ABC1234567"; wconfidence := 90;
     wbbox := {| x0 := 100; y0 := 100; x1 := 300; y1 := 130 |} |}.
Definition wordB : word :=
  {| text := lit "DEF1234567"; wconfidence := 50;
     wbbox := {| x0 := 100; y0 := 200; x1 := 300; y1 := 230 |} |}.
Definition wordC : word :=
  {| text := lit "GHI1234567"; wconfidence := 80;
     wbbox := {| x0 := 100; y0 := 1000; x1 := 300; y1 := 1030 |} |}.
Definition page : data :=
  {| words := [wordA; wordB; wordC]; lines := []; dheight := 3508 |}.

(** An identifier in the second column of the row of [wordA]. *)
Definition wordD : word :=
  {| text := lit "JKL1234567"; wconfidence := 85;
     wbbox := {| x0 := 900; y0 := 100; x1 := 1100; y1 := 130 |} |}.

(** Two lines whose gap is exactly the threshold. *)
Definition lineA : line :=
  {| ltext := lit "first"; lbbox := {| x0 := 0; y0 := 0; x1 := 90; y1 := 10 |} |}.
Definition lineB : line :=
  {| ltext := lit "second"; lbbox := {| x0 := 0; y0 := 50; x1 := 90; y1 := 60 |} |}.

(** The block text of the end-to-end example of the specification. *)
Definition rollLine : jsstring :=
  [0xb28; 0xb3e; 0xb2e; 0x3a; 0x20; 0xb2a; 0xb42; 0xb30; 0xb4d; 0xb23;
   0xb4d; 0xb23; 0xb3f; 0xb2e; 0xb3e; 0x20; 0xb2c; 0xb47; 0xb39;
   0xb47; 0xb30; 0xb3e; 0x20; 0x20; 0xb38; 0xb4d; 0xb2c; 0xb3e; 0xb2e;
   0xb40; 0xb19; 0xb4d; 0xb15; 0x20; 0xb28; 0xb3e; 0xb2e; 0x3a; 0x20;
   0xb38; 0xb02; 0xb1c; 0xb5f; 0x20; 0xb2c; 0xb47; 0xb39; 0xb47;
   0xb30; 0xb3e; 0x20; 0x20; 0xb2c; 0xb5f; 0xb38; 0x3a; 0x20; 0x33;
   0x37; 0x20; 0xb32; 0xb3f; 0xb17; 0xb02; 0x20; 0x3a; 0x20; 0xb38;
   0xb4d; 0xb24; 0xb4d; 0xb30; 0xb40]%N.

Definition sampleVoter : voter :=
  {| serialNo := 1;
     voterId := lit "YVY1435841";
     vname := {| odia := [0xb2a; 0xb42; 0xb30; 0xb4d; 0xb23; 0xb4d;
                       0xb23; 0xb3f; 0xb2e; 0xb3e; 0x20; 0xb2c; 0xb47;
                       0xb39; 0xb47; 0xb30; 0xb3e]%N;
                 english := lit "Purnima Behera" |};
     relation := (Husband, {| odia := [0xb38; 0xb02; 0xb1c; 0xb5f; 0x20;
                                    0xb2c; 0xb47; 0xb39; 0xb47; 0xb30;
                                    0xb3e]%N;
                              english := lit "Sanjay Behera" |});
     houseNo := lit "12";
     age := 37;
     gender := Female |}.

(** The same record under an identifier of four letters and eight
    digits. *)
Definition longIdVoter : voter :=
  {| serialNo := serialNo sampleVoter;
     voterId := lit "ABCD12345678";
     vname := vname sampleVoter;
     relation := relation sampleVoter;
     houseNo := houseNo sampleVoter;
     age := age sampleVoter;
     gender := gender sampleVoter |}.

Definition emptyTranslator : translator := {| cache := ∅; lastRequestTime := 0 |}.
Definition startWorld : world := {| clock := 0; requests := [] |}.

(** A service that answers. *)
Definition answeringService : list jsstring -> jsstring -> response :=
  fun _ _ => {| outcome := Some (lit "Name"); elapsed := 120 |}.

(** The Odia word for name, and the same word as a recogniser may pad
    it. *)
Definition odiaName : jsstring := [0xb28; 0xb3e; 0xb2e]%N.
Definition odiaNamePadded : jsstring := lit "  " ++ odiaName ++ lit "!  ".


(** * Further functions *)

(** ** [modules/ocr.js]: the orchestrator and the per-block extraction *)

Module OcrPipeline.

(** [s.replace(pat, rep)] with a string pattern: only the first occurrence
    is replaced. *)
Fixpoint replaceFirst (pat rep s : jsstring) : jsstring :=
  if startsWith pat s then rep ++ drop (length pat) s
  else match s with
       | [] => []
       | c :: s' => c :: replaceFirst pat rep s'
       end.

Section Detector.

Variable toUpperCase : jsstring -> jsstring.

(** [blockDetector.recognize(path)]: the recognition result, or [None]
    when the call rejects. *)
Variable recognize : jsstring -> option data.

(** [sharp(path).metadata()]: width and height of the image. *)
Variable metadata : jsstring -> option (Z * Z).

(** [detectVoterBlocks]; a rejected collaborator call rejects the whole
    call. *)
Definition detectVoterBlocks (imagePath : jsstring) : option (list block) :=
  data ← recognize imagePath;
  data ← (if bool_decide (words data = []) then
            let originalPath :=
              replaceFirst (lit "_debug.png") (lit ".png")
                (replaceFirst (lit "_processed.png") (lit ".png") imagePath) in
            if bool_decide (originalPath <> imagePath)
            then recognize originalPath
            else Some data
          else Some data);
  let voterBlocks := findVoterBlockBoundaries toUpperCase data in
  let voterBlocks :=
    if (bool_decide (voterBlocks = []) && negb (bool_decide (lines data = [])))%bool
    then detectBlocksByVisualStructure (lines data)
    else voterBlocks in
  if bool_decide (voterBlocks = []) then
    '(width, height) ← metadata imagePath;
    Some (detectBlocksByGrid width height)
  else Some voterBlocks.

End Detector.

(** [text.split(sep)] for a one-character separator. *)
Fixpoint splitOn (sep : N) (cur : jsstring) (s : jsstring) : list jsstring :=
  match s with
  | [] => [cur]
  | c :: s' =>
      if N.eqb c sep then cur :: splitOn sep [] s'
      else splitOn sep (cur ++ [c]) s'
  end.

(** The names under which [extractKeyValues] stores the fields, in the
    order in which it stores them. *)
Definition fieldNames : list jsstring := List.map (hd []) keys.

(** A string is truthy when it is not empty; a missing property is not. *)
Definition truthy (v : option jsstring) : bool :=
  match v with
  | Some (_ :: _) => true
  | _ => false
  end.

(** [for (const key in data) if (data[key] && !result[key]) result[key] =
    data[key]].  The properties of [data] are enumerated in the order of
    their creation, which is the order of [fieldNames]. *)
Definition mergeFields (result data : gmap jsstring jsstring)
  : gmap jsstring jsstring :=
  fold_left (fun result key =>
               match data !! key with
               | Some v =>
                   if (truthy (Some v) && negb (truthy (result !! key)))%bool
                   then <[ key := v ]> result
                   else result
               | None => result
               end)
    fieldNames result.

(** What [extractVoterData] returns: [voterId], [allLines] and [data] (the
    fields are also spread into the object itself). *)
Record voterData := {
  vdVoterId : jsstring;
  allLines : list jsstring;
  vdData : gmap jsstring jsstring
}.

Definition extractVoterData (text : jsstring) (initialVoterId : jsstring)
  : voterData :=
  let lines :=
    List.filter (fun l => negb (bool_decide (trim l = []))) (splitOn 10 [] text) in
  let voterId :=
    if startsWith (lit "BLOCK_") initialVoterId then
      match matchAnyId text with
      | Some m => m
      | None => initialVoterId
      end
    else initialVoterId in
  let result :=
    fold_left (fun result line => mergeFields result (extractKeyValues (trim line)))
      lines ∅ in
  {| vdVoterId := voterId; allLines := lines; vdData := result |}.

End OcrPipeline.

(** ** [modules/parser.js]: parsing a block into a record *)

Module VoterParser.

(** A block as the parser receives it: [block.voterId], [block.words] and
    [block.text]. *)
Record pblock := { bvoterId : jsstring; bwords : list word; btext : jsstring }.

(** [isOdiaText] *)
Definition isOdiaText (text : jsstring) : bool := existsb isOdia text.

(** [/^\d{1,3}$/.test(text) && parseInt(text) < 200] *)
Definition isSmallNumber (text : jsstring) : bool :=
  ((1 <=? length text)%nat && (length text <=? 3)%nat
   && forallb isDigit text && (parseInt text <? 200))%bool.

(** [filterLabelWords] *)
Definition filterLabelWords (words : list word) : list word :=
  List.filter
    (fun word =>
       let text := trim (Ocr.text word) in
       if existsb (fun label => includes text label) labelWords then false
       else if isSmallNumber text then false
       else true)
    words.

(** The loop of [extractNameFromWords] over [(longestOdia, currentOdia)],
    and the comparison after it. *)
Definition nameStep (st : jsstring * jsstring) (word : word)
  : jsstring * jsstring :=
  let '(longestOdia, currentOdia) := st in
  if isOdiaText (Ocr.text word)
  then (longestOdia, currentOdia ++ lit " " ++ Ocr.text word)
  else ((if (length longestOdia <? length currentOdia)%nat
         then currentOdia else longestOdia), []).

Definition longestOdiaRun (words : list word) : jsstring :=
  let '(longestOdia, currentOdia) := fold_left nameStep words ([], []) in
  if (length longestOdia <? length currentOdia)%nat
  then currentOdia else longestOdia.

(** [/\b(\d{1,4})\b/]: group 1 of the leftmost match.  [prev] is the code
    unit before [s].  The digits are taken greedily; giving one back
    leaves a digit behind the group, where no word boundary is, so a
    match is a whole run of one to four digits between non-word
    neighbours. *)
Fixpoint bareNumberFrom (prev : option N) (s : jsstring) : option jsstring :=
  match s with
  | [] => None
  | c :: s' =>
      let run := countPrefix isDigit s in
      if ((1 <=? run)%nat && (run <=? 4)%nat && notWord prev
          && notWord (head (drop run s)))%bool
      then Some (take run s)
      else bareNumberFrom (Some c) s'
  end.

(** [H\.?\s*No] at the head of [s], under the [i] flag: what follows. *)
Definition hNoAt (s : jsstring) : option jsstring :=
  match ciStrip (lit "H") s with
  | Some r =>
      let r := match r with
               | c :: r' => if N.eqb c 46 then r' else r
               | [] => r
               end in
      ciStrip (lit "No") (trimStart r)
  | None => None
  end.

(** [[\s:]*(\d+)] at the head of [s]: group 1. *)
Definition numberAfterLabel (s : jsstring) : option jsstring :=
  let r := drop (countPrefix (fun c => isSpace c || N.eqb c 58)%bool s) s in
  let run := countPrefix isDigit r in
  if (1 <=? run)%nat then Some (take run r) else None.

(** [/(?:H\.?\s*No|House|<Odia "ghara">)[\s:]*(\d+)/i] at the head of [s]:
    the alternatives are tried in their order. *)
Definition labelledNumberAt (s : jsstring) : option jsstring :=
  head (omap (fun after => match after with
                           | Some r => numberAfterLabel r
                           | None => None
                           end)
          [ hNoAt s; ciStrip (lit "House") s; ciStrip [0xb18; 0xb30]%N s ]).

(** [num > 0 && num < 10000] on [parseInt(match[1])] *)
Definition houseNumberOk (digits : jsstring) : bool :=
  ((0 <? parseInt digits) && (parseInt digits <? 10000))%bool.

(** [extractHouseNumber]: the loop over the two patterns. *)
Definition extractHouseNumber (text : jsstring) : jsstring :=
  match firstMatch labelledNumberAt text with
  | Some digits =>
      if houseNumberOk digits then digits
      else match bareNumberFrom None text with
           | Some digits' => if houseNumberOk digits' then digits' else []
           | None => []
           end
  | None =>
      match bareNumberFrom None text with
      | Some digits' => if houseNumberOk digits' then digits' else []
      | None => []
      end
  end.

Section Builtins.

(** [String.prototype.toLowerCase] and [toUpperCase] follow the Unicode
    case tables; the parser is modelled for any such functions. *)
Variable toLowerCase : jsstring -> jsstring.
Variable toUpperCase : jsstring -> jsstring.

(** The translation service behind [translator.translateToEnglish]. *)
Variable translate : list jsstring -> jsstring -> response.

(** [capitalizeWords] *)
Definition capitalizeWords (text : jsstring) : jsstring :=
  match text with
  | [] => []
  | _ =>
      Ocr.join (lit " ")
        (List.map (fun word => toUpperCase (take 1 word) ++ drop 1 word)
           (OcrPipeline.splitOn 32 [] (toLowerCase text)))
  end.

(** [matchesKeywords] *)
Definition matchesKeywords (text : jsstring) (keywords : list jsstring) : bool :=
  let lower := toLowerCase text in
  existsb (fun keyword =>
             (includes lower (toLowerCase keyword) || includes text keyword)%bool)
    keywords.

Definition emptyName : name := {| odia := []; english := [] |}.

(** [extractNameFromWords] *)
Definition extractNameFromWords (words : list word) (t : translator) (w : world)
  : completion name * translator * world :=
  match words with
  | [] => (Resolved emptyName, t, w)
  | _ =>
      let odia := trim (longestOdiaRun words) in
      if (bool_decide (odia = []) || (length odia <? 3)%nat)%bool
      then (Resolved emptyName, t, w)
      else
        match translateToEnglish translate odia t w with
        | (Resolved english, t', w') =>
            (Resolved
               {| odia := odia;
                  english := capitalizeWords
                               (match english with [] => odia | _ => english end) |},
             t', w')
        | (Rejected e, t', w') => (Rejected e, t', w')
        end
  end.

Definition odiaMother : jsstring := [0xb2e; 0xb3e; 0xb24; 0xb3e]%N.
Definition odiaFather : jsstring := [0xb2a; 0xb3f; 0xb24; 0xb3e]%N.
Definition odiaHusband : jsstring := [0xb38; 0xb4d; 0xb71; 0xb3e; 0xb2e; 0xb40]%N.

(** [words.findIndex(p)], with [None] for -1. *)
Fixpoint findIndex {A : Type} (p : A -> bool) (l : list A) : option nat :=
  match l with
  | [] => None
  | a :: l' => if p a then Some O else S <$> findIndex p l'
  end.

(** [extractRelationFromWords] *)
Definition extractRelationFromWords (words : list word) (t : translator)
    (w : world) : completion (relationType * name) * translator * world :=
  let text := Ocr.join (lit " ") (List.map Ocr.text words) in
  let type :=
    if matchesKeywords text [odiaMother; lit "mother"] then Mother
    else if (includes (toLowerCase text) (lit "husband")
             || includes text odiaHusband)%bool then Husband
    else Father in
  let relationIdx :=
    findIndex (fun w => matchesKeywords (Ocr.text w)
                          [odiaFather; odiaMother; odiaHusband;
                           lit "father"; lit "husband"; lit "mother"])
      words in
  let relationName :=
    match relationIdx with
    | Some idx =>
        if (S idx <? length words)%nat then
          let nameWords := drop (S idx) words in
          let odiaWords := List.filter (fun w => isOdiaText (Ocr.text w)) nameWords in
          Ocr.join (lit " ") (List.map Ocr.text odiaWords)
        else []
    | None => []
    end in
  match (match relationName with
         | [] => (Resolved [], t, w)
         | _ => translateToEnglish translate relationName t w
         end) with
  | (Resolved english, t', w') =>
      (Resolved
         (type, {| odia := relationName;
                   english := capitalizeWords
                                (match english with
                                 | [] => relationName
                                 | _ => english
                                 end) |}),
       t', w')
  | (Rejected e, t', w') => (Rejected e, t', w')
  end.

Definition odiaFemale1 : jsstring := [0xb2e; 0xb39; 0xb3f; 0xb33; 0xb3e]%N.
Definition odiaFemale2 : jsstring := [0xb38; 0xb4d; 0xb24; 0xb4d; 0xb30; 0xb40]%N.
Definition odiaMale : jsstring := [0xb2a; 0xb41; 0xb30; 0xb41; 0xb37]%N.

(** [extractGender] *)
Definition extractGender (text : jsstring) (relationType : relationType)
  : genderType :=
  if matchesKeywords text [odiaFemale1; odiaFemale2; lit "female"] then Female
  else if matchesKeywords text [odiaMale; lit "male"] then Male
  else match relationType with
       | Husband => Female
       | _ => Male
       end.

(** [parseVoterBlock]; of the address only the house number is kept.  A
    rejected [await] rejects the call. *)
Definition parseVoterBlock (block : pblock) (serialNo : Z) (t : translator)
    (w : world) : completion voter * translator * world :=
  let contentWords := filterLabelWords (bwords block) in
  match extractNameFromWords contentWords t w with
  | (Rejected e, t1, w1) => (Rejected e, t1, w1)
  | (Resolved nameData, t1, w1) =>
      match extractRelationFromWords contentWords t1 w1 with
      | (Rejected e, t2, w2) => (Rejected e, t2, w2)
      | (Resolved relationData, t2, w2) =>
          let age := extractAge (btext block) in
          let gender := extractGender (btext block) (fst relationData) in
          let houseNo := extractHouseNumber (btext block) in
          (Resolved
             {| serialNo := serialNo; Parser.voterId := bvoterId block;
                vname := nameData; relation := relationData;
                houseNo := houseNo; age := age; gender := gender |},
           t2, w2)
      end
  end.

(** [extractVotersFromBlocks]: the loop over the blocks, [i] being the
    index of the first of [blocks].  The [catch] clause logs the error of
    a rejected [parseVoterBlock] and goes on with the next block. *)
Fixpoint votersFrom (blocks : list pblock) (startingSerialNo : Z) (i : Z)
    (t : translator) (w : world) : list voter * translator * world :=
  match blocks with
  | [] => ([], t, w)
  | block :: rest =>
      let '(parsed, t1, w1) := parseVoterBlock block (startingSerialNo + i) t w in
      let '(voters, t2, w2) := votersFrom rest startingSerialNo (i + 1) t1 w1 in
      (match parsed with
       | Resolved voter => if isValidVoter voter then voter :: voters else voters
       | Rejected _ => voters
       end, t2, w2)
  end.

Definition extractVotersFromBlocks (voterBlocks : list pblock)
    (startingSerialNo : Z) (t : translator) (w : world)
  : list voter * translator * world :=
  votersFrom voterBlocks startingSerialNo 0 t w.

End Builtins.

End VoterParser.

(** ** Contour rectangles ([hest.mjs]) *)

Module Contours.

(** A bounding rectangle as OpenCV gives it: integer pixels. *)
Record rect := { x : Z; y : Z; width : Z; height : Z }.

Definition isDuplicateRect (r1 r2 : rect) (tolerance : Z) : bool :=
  (Z.abs (x r1 - x r2) <? tolerance)
  && (Z.abs (y r1 - y r2) <? tolerance)
  && (Z.abs (width r1 - width r2) <? tolerance)
  && (Z.abs (height r1 - height r2) <? tolerance).

Section Filter.

(** The entries carry the polygon, the contour and the aspect ratio beside
    the rectangle; the filter reads the rectangle only. *)
Variable entry : Type.
Variable rectOf : entry -> rect.

Definition keep (tolerance : Z) (unique : list entry) (contour : entry)
    : list entry :=
  if existsb (fun c => isDuplicateRect (rectOf c) (rectOf contour) tolerance)
       unique
  then unique
  else unique ++ [contour].

Definition filterDuplicateRects (contourData : list entry) (tolerance : Z)
    : list entry :=
  fold_left (keep tolerance) contourData [].

End Filter.

End Contours.

(** * Further vocabulary *)

Import OcrPipeline.

(** The cell with running number [k] of the grid on a page of the given
    width: row [k / 3], column [k mod 3]. *)
Definition gridBlockAt (width : Z) (k : Z) : block :=
  let margin := gridMargin width in
  let colWidth := (width - margin * 4) / cols in
  let x := margin + (k mod cols) * (colWidth + margin) in
  let y := margin + (k / cols) * rowHeight in
  {| Ocr.voterId := lit "GRID_" ++ ofZ (k + 1);
     blockIndex := k;
     bboundary := {| x := x; y := y; width := colWidth; height := rowHeight |};
     referenceWord := RefPoint y x;
     confidence := 70 |}.

(** Two rectangles share no pixel. *)
Definition disjoint (a b : boundary) : Prop :=
  x a + width a <= x b \/ x b + width b <= x a
  \/ y a + height a <= y b \/ y b + height b <= y a.

(** The box of a group is anchored at the top of its first line and is,
    horizontally and at the bottom, the bounding box of its lines. *)
Definition tightBox (g : group) : Prop :=
  (exists l rest, glines g = l :: rest /\ minY g = y0 (lbbox l))
  /\ (forall l, In l (glines g) ->
        minX g <= x0 (lbbox l) /\ x1 (lbbox l) <= maxX g
        /\ y1 (lbbox l) <= maxY g)
  /\ (exists l, In l (glines g) /\ minX g = x0 (lbbox l))
  /\ (exists l, In l (glines g) /\ maxX g = x1 (lbbox l))
  /\ (exists l, In l (glines g) /\ maxY g = y1 (lbbox l)).

(** The first non-empty value that the lines, taken in order, give for the
    field [k]. *)
Fixpoint firstField (k : jsstring) (ls : list jsstring) : option jsstring :=
  match ls with
  | [] => None
  | l :: ls' =>
      if truthy (extractKeyValues (trim l) !! k)
      then extractKeyValues (trim l) !! k
      else firstField k ls'
  end.

(** A block text whose two lines both give an age. *)
Definition twoAgeLines : jsstring := lit "Age: 30" ++ [10%N] ++ lit "Age: 41".

(** [p] occurs in [s] as a run of consecutive code units. *)
Definition occursIn (p s : jsstring) : Prop :=
  exists pre post, s = pre ++ p ++ post.

(** The words of a run as [extractNameFromWords] chains them: each one
    behind a space. *)
Definition spacedRun (ws : list word) : jsstring :=
  flat_map (fun w => lit " " ++ text w) ws.

(** * Properties *)

(** ** Grid fallback *)

Lemma gridMargin_eq W : gridMargin W = W / 50.
Proof.
  unfold gridMargin. replace 100 with (2 * 50) by reflexivity.
  rewrite Z.mul_comm. rewrite Z.div_mul_cancel_l; lia.
Qed.

(** A cell that fits under the page bottom is pushed and numbered. *)
Lemma gridCell_length W H row col st :
  gridMargin W + row * rowHeight + rowHeight <= H ->
  length (fst (gridCell W H row col st)) = S (length (fst st))
  /\ snd (gridCell W H row col st) = snd st + 1.
Proof.
  intros Hfit. unfold gridCell.
  destruct (Z.gtb_spec (gridMargin W + row * rowHeight + rowHeight) H) as [Hgt|_];
    [lia|].
  destruct st as [blocks i]. simpl. rewrite length_app. simpl. lia.
Qed.

Lemma gridRow_length W H row st :
  gridMargin W + row * rowHeight + rowHeight <= H ->
  length (fst (forRange 0 cols (gridCell W H row) st)) = (length (fst st) + 3)%nat.
Proof.
  intros Hfit. unfold forRange, cols.
  change (seqZ 0 (3 - 0)) with [0; 1; 2]. simpl.
  repeat match goal with
  | |- context [gridCell W H row ?c ?s] =>
      let Hl := fresh in
      destruct (gridCell_length W H row c s Hfit) as [Hl _]; rewrite Hl; clear Hl
  end.
  lia.
Qed.

Lemma fold_rows_length {A} (f : list A * Z -> Z -> list A * Z) (k : nat)
    (l : list Z) :
  forall st,
  (forall r s, In r l -> length (fst (f s r)) = (length (fst s) + k)%nat) ->
  length (fst (fold_left f l st)) = (length (fst st) + k * length l)%nat.
Proof.
  induction l as [|r l IH]; intros st Hstep; simpl.
  - lia.
  - rewrite IH.
    + rewrite Hstep by (left; reflexivity). lia.
    + intros r' s Hin. apply Hstep. right; exact Hin.
Qed.

(** Every row the outer loop visits fits on the page, so the guard
    [y + rowHeight > height] never skips a cell. *)
Lemma grid_row_fits W H row :
  0 < W -> 0 <= row < gridRows W H ->
  gridMargin W + row * rowHeight + rowHeight <= H.
Proof.
  intros HW [Hlo Hhi]. unfold gridRows, rowHeight in *.
  assert (Hm : 0 <= gridMargin W) by (rewrite gridMargin_eq; apply Z.div_pos; lia).
  pose proof (Z.mul_div_le (H - gridMargin W * 2) 200 ltac:(lia)) as Hdiv.
  nia.
Qed.

(** C1 (amended).  On a page of positive width [W] and height [H] the grid
    fallback returns exactly [3 * max 0 (floor ((H - 2 * margin) / 200))]
    blocks, with [margin = floor (W / 50)]: the row count is rounded down,
    not up, and the result is empty exactly when [H - 2 * margin < 200]. *)
Theorem grid_block_count (W H : Z) :
  0 < W -> 0 < H ->
  Z.of_nat (length (detectBlocksByGrid W H))
    = 3 * Z.max 0 ((H - 2 * (W / 50)) / 200)
  /\ (detectBlocksByGrid W H = [] <-> H - 2 * (W / 50) < 200).
Proof.
  intros HW HH.
  assert (Hlen : length (detectBlocksByGrid W H)
                 = (3 * Z.to_nat (gridRows W H))%nat).
  { unfold detectBlocksByGrid, forRange at 1.
    rewrite (fold_rows_length _ 3).
    - rewrite length_seqZ. simpl. rewrite Z.sub_0_r. lia.
    - intros r s Hin. apply gridRow_length. apply grid_row_fits; [exact HW|].
      apply list_elem_of_In, elem_of_seqZ in Hin. lia. }
  assert (Hrows : gridRows W H = (H - 2 * (W / 50)) / 200).
  { unfold gridRows, rowHeight. rewrite gridMargin_eq. f_equal. lia. }
  split.
  - rewrite Hlen, Hrows. lia.
  - rewrite <- length_zero_iff_nil, Hlen, Hrows.
    split; intros Hz.
    + destruct (Z.lt_ge_cases (H - 2 * (W / 50)) 200) as [Hlt|Hge]; [exact Hlt|].
      assert (1 <= (H - 2 * (W / 50)) / 200)
        by (apply Z.div_le_lower_bound; lia).
      lia.
    + assert ((H - 2 * (W / 50)) / 200 < 1)
        by (apply Z.div_lt_upper_bound; lia).
      lia.
Qed.

Lemma grid_block_count_witness :
  Z.of_nat (length (detectBlocksByGrid 2480 3508))
    = 3 * Z.max 0 ((3508 - 2 * (2480 / 50)) / 200)
  /\ (detectBlocksByGrid 2480 3508 = [] <-> 3508 - 2 * (2480 / 50) < 200).
Proof. apply (grid_block_count 2480 3508); lia. Defined.

(** The A4 scan of the specification's end-to-end example: 17 rows of 3
    cells, the first one at the margin. *)
Example grid_a4_page :
  length (detectBlocksByGrid 2480 3508) = 51%nat
  /\ (bboundary <$> head (detectBlocksByGrid 2480 3508))
     = Some {| x := 49; y := 49; width := 761; height := 200 |}.
Proof. split; reflexivity. Qed.

(** C1 as stated fails on a 100 x 100 page: the margin is 2, the formula
    [3 * ceil (96 / 200)] asks for 3 blocks, and the detector returns
    none. *)
Lemma grid_block_count_counterexample :
  0 < 100 /\ 0 < 100
  /\ Z.of_nat (length (detectBlocksByGrid 100 100))
      <> 3 * (- ((- (100 - 2 * gridMargin 100)) / rowHeight))
  /\ detectBlocksByGrid 100 100 = [].
Proof. repeat split; try lia; try reflexivity. vm_compute. discriminate. Qed.

(** ** Structural fallback *)

(** Once a line has been read there is a current group. *)
Lemma groupStep_current st l : is_Some (snd (groupStep st l)).
Proof.
  destruct st as [blocks [cb|]]; simpl; [|eauto].
  destruct (y0 (lbbox l) - maxY cb <? spaceThreshold); simpl; eauto.
Qed.

Lemma fold_groupStep_current ls st :
  ls <> [] -> is_Some (snd (fold_left groupStep ls st)).
Proof.
  destruct ls as [|l ls _] using rev_ind; [congruence|]. intros _.
  rewrite fold_left_app. simpl. apply groupStep_current.
Qed.

(** The last line read is the last line of the current group. *)
Lemma fold_groupStep_last ls st cb :
  ls <> [] -> snd (fold_left groupStep ls st) = Some cb ->
  last (glines cb) = last ls.
Proof.
  destruct ls as [|l ls _] using rev_ind; [congruence|]. intros _.
  rewrite fold_left_app. simpl.
  destruct (fold_left groupStep ls st) as [blocks [cur|]]; simpl.
  - destruct (y0 (lbbox l) - maxY cur <? spaceThreshold); simpl;
      intros [= <-]; simpl; rewrite ?last_snoc; reflexivity.
  - intros [= <-]. simpl. rewrite last_snoc. reflexivity.
Qed.

(** C8 (amended).  When a line [l] follows the lines [ls], it starts a new
    group exactly when the gap from the bottom edge of the current group to
    the top of [l] is at least 40 pixels (40 itself included); with a
    smaller gap it joins the current group, which holds the line before
    it. *)
Theorem structural_grouping_threshold (ls : list line) (l : line) :
  ls <> [] ->
  exists blocks cb,
    groupLines ls = blocks ++ [cb]
    /\ last (glines cb) = last ls
    /\ (40 <= y0 (lbbox l) - maxY cb ->
        groupLines (ls ++ [l]) = blocks ++ [cb; freshGroup l])
    /\ (y0 (lbbox l) - maxY cb < 40 ->
        groupLines (ls ++ [l]) = blocks ++ [joinGroup cb l]).
Proof.
  intros Hne. unfold groupLines. rewrite fold_left_app. simpl.
  pose proof (fold_groupStep_current ls ([], None) Hne) as [cb Hcb].
  pose proof (fold_groupStep_last ls ([], None) cb Hne Hcb) as Hlast.
  destruct (fold_left groupStep ls ([], None)) as [blocks cur].
  simpl in Hcb. subst cur. exists blocks, cb. simpl.
  unfold spaceThreshold.
  repeat split; [exact Hlast| |]; intros Hgap;
    destruct (Z.ltb_spec (y0 (lbbox l) - maxY cb) 40); try lia.
  - rewrite <- app_assoc. reflexivity.
  - reflexivity.
Qed.

Lemma structural_grouping_threshold_witness :
  [lineA] <> []
  /\ exists blocks cb,
       groupLines [lineA] = blocks ++ [cb]
       /\ last (glines cb) = last [lineA]
       /\ (40 <= y0 (lbbox lineB) - maxY cb ->
           groupLines ([lineA] ++ [lineB]) = blocks ++ [cb; freshGroup lineB])
       /\ (y0 (lbbox lineB) - maxY cb < 40 ->
           groupLines ([lineA] ++ [lineB]) = blocks ++ [joinGroup cb lineB]).
Proof.
  split; [discriminate|].
  apply (structural_grouping_threshold [lineA] lineB). discriminate.
Defined.

(** C8 as stated fails at a gap of exactly 40 pixels: [lineB] starts
    40 pixels under the bottom of [lineA] and is put in a group of its
    own, although the gap does not exceed 40. *)
Lemma structural_gap_counterexample :
  y0 (lbbox lineB) - maxY (freshGroup lineA) = 40
  /\ ~ (groupLines [lineA; lineB] = [freshGroup lineA; freshGroup lineB]
        <-> y0 (lbbox lineB) - maxY (freshGroup lineA) > 40).
Proof.
  split; [reflexivity|].
  intros [Hsplit _]. specialize (Hsplit eq_refl). simpl in Hsplit. lia.
Qed.

(** ** Identifier pattern *)

Lemma strictAt_Some s r :
  strictAt s = Some r ->
  exists letters digits post,
    s = letters ++ digits ++ post /\ r = letters ++ digits
    /\ length letters = 3%nat /\ forallb isUpper letters = true
    /\ length digits = 7%nat /\ forallb isDigit digits = true.
Proof.
  unfold strictAt.
  destruct (length (take 3 s) =? 3)%nat eqn:Hl; [|discriminate].
  destruct (forallb isUpper (take 3 s)) eqn:Hu; [|discriminate].
  destruct (length (take 7 (drop 3 s)) =? 7)%nat eqn:Hd; [|discriminate].
  destruct (forallb isDigit (take 7 (drop 3 s))) eqn:Hg; [|discriminate].
  simpl. intros [= <-].
  exists (take 3 s), (take 7 (drop 3 s)), (drop 7 (drop 3 s)).
  apply Nat.eqb_eq in Hl, Hd.
  rewrite !take_drop. repeat split; assumption.
Qed.

Lemma strictAt_app letters digits post :
  length letters = 3%nat -> forallb isUpper letters = true ->
  length digits = 7%nat -> forallb isDigit digits = true ->
  strictAt (letters ++ digits ++ post) = Some (letters ++ digits).
Proof.
  intros Hl Hu Hd Hg. unfold strictAt.
  rewrite (take_app_length' letters _ 3), (drop_app_length' letters _ 3) by auto.
  rewrite (take_app_length' digits _ 7) by auto.
  rewrite Hl, Hd, Hu, Hg. reflexivity.
Qed.

Lemma firstMatch_here at_ s r : at_ s = Some r -> firstMatch at_ s = Some r.
Proof. intros H. destruct s; simpl; rewrite H; reflexivity. Qed.

Lemma firstMatch_later at_ c s :
  is_Some (firstMatch at_ s) -> is_Some (firstMatch at_ (c :: s)).
Proof. intros H. simpl. destruct (at_ (c :: s)); eauto. Qed.

Lemma voterIdPattern_spec s :
  voterIdPattern s = true <-> containsStrictId s.
Proof.
  unfold voterIdPattern. rewrite bool_decide_eq_true. split.
  - intros [r Hr]. induction s as [|c s IH]; simpl in Hr.
    + destruct (strictAt []) eqn:Hat; [|discriminate].
      apply strictAt_Some in Hat as (ls & ds & ps & Hs & _ & H).
      exists [], ls, ds, ps. split; [exact Hs|exact H].
    + destruct (strictAt (c :: s)) eqn:Hat.
      * apply strictAt_Some in Hat as (ls & ds & ps & Hs & _ & H).
        exists [], ls, ds, ps. split; [exact Hs|exact H].
      * destruct (IH Hr) as (pre & ls & ds & ps & -> & H).
        exists (c :: pre), ls, ds, ps. split; [reflexivity|exact H].
  - intros (pre & ls & ds & ps & -> & Hl & Hu & Hd & Hg).
    induction pre as [|c pre IH].
    + rewrite app_nil_l. exists (ls ++ ds).
      apply firstMatch_here, strictAt_app; assumption.
    + apply firstMatch_later, IH.
Qed.

(** ** Record validation *)

Lemma existsb_false_iff {A} (f : A -> bool) (l : list A) :
  existsb f l = false <-> (forall x, In x l -> f x = false).
Proof.
  split.
  - intros H x Hin. destruct (f x) eqn:Hf; [|reflexivity].
    rewrite <- H. symmetry. apply existsb_exists. eauto.
  - intros H. destruct (existsb f l) eqn:He; [|reflexivity].
    apply existsb_exists in He as (x & Hin & Hf). rewrite (H x Hin) in Hf.
    discriminate.
Qed.

(** C5 (amended).  A record passes validation exactly when its identifier
    holds, somewhere in it, three capital letters followed by seven digits,
    its Odia name is longer than two code units and contains no label
    word, and its age lies in [18, 120].  Whatever the rest of a record,
    the ages 17 and 121 are rejected, and a record that passes still
    passes with the ages 18 and 120. *)
Theorem isValidVoter_spec (v : voter) :
  (isValidVoter v = true <->
     containsStrictId (voterId v)
     /\ (2 < length (odia (vname v)))%nat
     /\ (forall label, In label labelWords ->
           includes (odia (vname v)) label = false)
     /\ 18 <= age v <= 120)
  /\ isValidVoter (withAge v 17) = false
  /\ isValidVoter (withAge v 121) = false
  /\ (isValidVoter v = true ->
      isValidVoter (withAge v 18) = true /\ isValidVoter (withAge v 120) = true).
Proof.
  assert (Hage : forall a, isValidVoter (withAge v a)
                 = (isValidVoter (withAge v 18)
                    && ((a >=? 18) && (a <=? 120)))%bool).
  { intros a. unfold isValidVoter, ageClause. simpl.
    rewrite Bool.andb_true_r. reflexivity. }
  assert (Hself : isValidVoter v = isValidVoter (withAge v (age v))).
  { destruct v; reflexivity. }
  split; [|split; [|split]].
  - unfold isValidVoter, ageClause.
    rewrite !Bool.andb_true_iff, !Bool.negb_true_iff, bool_decide_eq_false.
    rewrite voterIdPattern_spec, existsb_false_iff.
    rewrite Z.ltb_lt, Z.geb_le, Z.leb_le.
    split.
    + intros ((((_ & Hid) & Hlen) & Hlab) & Ha). repeat split; auto; lia.
    + intros (Hid & Hlen & Hlab & Ha). repeat split; auto; try lia.
      intros Hnil. destruct Hid as (pre & ls & ds & ps & Hs & Hl & _).
      rewrite Hnil in Hs. destruct pre, ls; discriminate.
  - rewrite Hage. apply Bool.andb_false_r.
  - rewrite Hage. apply Bool.andb_false_r.
  - rewrite Hself, (Hage (age v)). intros H.
    apply Bool.andb_true_iff in H as [H _].
    rewrite (Hage 120), H. auto.
Qed.

Lemma isValidVoter_spec_witness :
  isValidVoter sampleVoter = true
  /\ containsStrictId (voterId sampleVoter)
  /\ isValidVoter (withAge sampleVoter 18) = true
  /\ isValidVoter (withAge sampleVoter 120) = true.
Proof.
  destruct (isValidVoter_spec sampleVoter) as (Hiff & _ & _ & Hacc).
  assert (Hv : isValidVoter sampleVoter = true) by reflexivity.
  split; [exact Hv|]. split.
  - apply Hiff. exact Hv.
  - apply Hacc. exact Hv.
Defined.

(** C5 as stated fails on an identifier of four letters and eight digits:
    the pattern is not anchored, the record passes validation, and its
    identifier is not of the strict grammar. *)
Lemma isValidVoter_strict_counterexample :
  isValidVoter longIdVoter = true /\ ~ isStrictId (voterId longIdVoter).
Proof.
  split; [reflexivity|].
  intros (letters & digits & Hid & Hl & _ & Hd & _).
  apply (f_equal (@length N)) in Hid. rewrite length_app, Hl, Hd in Hid.
  vm_compute in Hid. discriminate.
Qed.

(** ** Age extraction *)

Lemma isDigit_word c : isDigit c = true -> isWordChar c = true.
Proof.
  intros H. unfold isWordChar. rewrite H.
  rewrite Bool.orb_true_r. reflexivity.
Qed.

Lemma tokenAfter_S prev a s k v :
  tokenAfter prev (a :: s) (S k) v <-> tokenAfter (Some a) s k v.
Proof.
  unfold tokenAfter. simpl.
  split; intros (x & y & H1 & H2 & H3 & H4 & H5 & H6 & H7);
    exists x, y; repeat split; try assumption; destruct k; assumption.
Qed.

Lemma parseInt_two a b : parseInt [a; b] = 10 * digitVal a + digitVal b.
Proof. unfold parseInt. simpl. lia. Qed.

Lemma tokenAfter_head prev a b rest v :
  tokenAfter prev (a :: b :: rest) 0 v <->
  (isDigit a && isDigit b && notWord prev && notWord (head rest))%bool = true
  /\ v = parseInt [a; b].
Proof.
  rewrite parseInt_two. unfold tokenAfter. simpl.
  rewrite !Bool.andb_true_iff.
  assert (Hh : rest !! 0%nat = head rest) by (destruct rest; reflexivity).
  rewrite Hh. split.
  - intros (x & y & [= <-] & [= <-] & H3 & H4 & H5 & H6 & H7). auto.
  - intros ((((H3 & H4) & H6) & H7) & H5). exists a, b. repeat split; assumption.
Qed.

Lemma ageMatchesFrom_step prev a b rest :
  ageMatchesFrom prev (a :: b :: rest)
  = if (isDigit a && isDigit b && notWord prev && notWord (head rest))%bool
    then [a; b] :: ageMatchesFrom (Some b) rest
    else ageMatchesFrom (Some a) (b :: rest).
Proof. reflexivity. Qed.

(** The scan finds the first token in range, whatever precedes the
    text. *)
Lemma firstAge_scan n :
  forall s, (length s <= n)%nat -> forall prev,
  match firstAge (ageMatchesFrom prev s) with
  | Some v =>
      inAgeRange v
      /\ exists k, tokenAfter prev s k v
           /\ forall j v', (j < k)%nat -> tokenAfter prev s j v' -> ~ inAgeRange v'
  | None => forall j v', tokenAfter prev s j v' -> ~ inAgeRange v'
  end.
Proof.
  induction n as [|n IH]; intros s Hlen prev.
  - destruct s; [|simpl in Hlen; lia]. simpl.
    intros j v' (a & b & Ha & _). rewrite lookup_nil in Ha. discriminate.
  - destruct s as [|a [|b rest]].
    + simpl. intros j v' (x & y & Ha & _). rewrite lookup_nil in Ha. discriminate.
    + simpl. intros j v' (x & y & _ & Hb & _). discriminate.
    + rewrite ageMatchesFrom_step.
      destruct (isDigit a && isDigit b && notWord prev && notWord (head rest))%bool
        eqn:Hcond.
      * cbn [firstAge].
        destruct ((parseInt [a; b] >=? 18) && (parseInt [a; b] <=? 120))%bool
          eqn:Hrange.
        -- apply Bool.andb_true_iff in Hrange as [H1 H2].
           split; [unfold inAgeRange; lia|].
           exists 0%nat. split; [apply tokenAfter_head; auto|].
           intros j v' Hj. lia.
        -- assert (Hout : ~ inAgeRange (parseInt [a; b])).
           { unfold inAgeRange. apply Bool.andb_false_iff in Hrange. lia. }
           assert (Hone : forall v', ~ tokenAfter prev (a :: b :: rest) 1 v').
           { intros v' Ht. apply tokenAfter_S in Ht.
             destruct Ht as (x & y & _ & _ & _ & _ & _ & Hp & _). simpl in Hp.
             apply Bool.andb_true_iff in Hcond as [Hcond _].
             apply Bool.andb_true_iff in Hcond as [Hcond _].
             apply Bool.andb_true_iff in Hcond as [Hda _].
             rewrite (isDigit_word a Hda) in Hp. discriminate. }
           specialize (IH rest ltac:(simpl in Hlen; lia) (Some b)).
           destruct (firstAge (ageMatchesFrom (Some b) rest)) as [v|].
           ++ destruct IH as (Hv & k & Hk & Hmin). split; [exact Hv|].
              exists (S (S k)). split; [apply tokenAfter_S, tokenAfter_S, Hk|].
              intros [|[|j]] v' Hj Ht.
              ** apply tokenAfter_head in Ht as [_ ->]. exact Hout.
              ** exfalso. exact (Hone v' Ht).
              ** apply (Hmin j v'); [lia|]. apply tokenAfter_S, tokenAfter_S in Ht.
                 exact Ht.
           ++ intros [|[|j]] v' Ht.
              ** apply tokenAfter_head in Ht as [_ ->]. exact Hout.
              ** exfalso. exact (Hone v' Ht).
              ** apply (IH j v'). apply tokenAfter_S, tokenAfter_S in Ht. exact Ht.
      * assert (Hzero : forall v', ~ tokenAfter prev (a :: b :: rest) 0 v').
        { intros v' Ht. apply tokenAfter_head in Ht as [Ht _]. congruence. }
        specialize (IH (b :: rest) ltac:(simpl in *; lia) (Some a)).
        destruct (firstAge (ageMatchesFrom (Some a) (b :: rest))) as [v|].
        -- destruct IH as (Hv & k & Hk & Hmin). split; [exact Hv|].
           exists (S k). split; [apply tokenAfter_S, Hk|].
           intros [|j] v' Hj Ht.
           ++ exfalso. exact (Hzero v' Ht).
           ++ apply (Hmin j v'); [lia|]. apply tokenAfter_S in Ht. exact Ht.
        -- intros [|j] v' Ht.
           ++ exfalso. exact (Hzero v' Ht).
           ++ apply (IH j v'). apply tokenAfter_S in Ht. exact Ht.
Qed.

(** C10.  Age extraction returns, for every text, an integer in
    [18, 120]: the value of the first standalone two-digit token that
    lies in this range, and 25 when there is none.  The age clause of the
    validation therefore accepts every record whose age it produced. *)
Theorem extractAge_spec (text : jsstring) :
  18 <= extractAge text <= 120
  /\ ((exists i, standaloneTwoDigitAt text i (extractAge text)
         /\ forall j v, (j < i)%nat -> standaloneTwoDigitAt text j v ->
                        ~ inAgeRange v)
      \/ (extractAge text = 25
          /\ forall j v, standaloneTwoDigitAt text j v -> ~ inAgeRange v))
  /\ (forall v : voter, age v = extractAge text -> ageClause v = true).
Proof.
  assert (Hrange : 18 <= extractAge text <= 120
     /\ ((exists i, standaloneTwoDigitAt text i (extractAge text)
         /\ forall j v, (j < i)%nat -> standaloneTwoDigitAt text j v ->
                        ~ inAgeRange v)
      \/ (extractAge text = 25
          /\ forall j v, standaloneTwoDigitAt text j v -> ~ inAgeRange v))).
  { unfold extractAge, ageMatches, standaloneTwoDigitAt.
    pose proof (firstAge_scan (length text) text (Nat.le_refl _) None) as Hscan.
    destruct (firstAge (ageMatchesFrom None text)) as [v|].
    - destruct Hscan as (Hv & k & Hk & Hmin).
      split; [exact Hv|]. left. exists k. split; assumption.
    - split; [lia|]. right. split; [reflexivity|exact Hscan]. }
  destruct Hrange as [Hr Hfirst]. split; [exact Hr|]. split; [exact Hfirst|].
  intros v Hv. unfold ageClause. rewrite Hv.
  apply Bool.andb_true_iff. split; [apply Z.geb_le|apply Z.leb_le]; lia.
Qed.

Lemma extractAge_spec_witness :
  age sampleVoter = extractAge rollLine /\ ageClause sampleVoter = true.
Proof.
  split; [reflexivity|].
  apply (extractAge_spec rollLine). reflexivity.
Defined.

(** ** Anchor detector *)

Lemma insertByConfidence_Permutation c cs :
  Permutation (insertByConfidence c cs) (c :: cs).
Proof.
  induction cs as [|d cs IH]; simpl; [reflexivity|].
  destruct (Qle_bool (cconfidence d) (cconfidence c)); [reflexivity|].
  rewrite IH. apply perm_swap.
Qed.

Lemma sortByConfidence_Permutation cs : Permutation (sortByConfidence cs) cs.
Proof.
  induction cs as [|c cs IH]; simpl; [reflexivity|].
  rewrite insertByConfidence_Permutation. constructor. exact IH.
Qed.

Lemma insertByConfidence_sorted c cs :
  StronglySorted before cs -> StronglySorted before (insertByConfidence c cs).
Proof.
  induction 1 as [|d cs Hs IH Hd]; simpl.
  - repeat constructor.
  - destruct (Qle_bool (cconfidence d) (cconfidence c)) eqn:Hle.
    + apply Qle_bool_iff in Hle. constructor; [constructor; assumption|].
      constructor; [exact Hle|].
      eapply Forall_impl; [exact Hd|]. intros e He. unfold before in *.
      eapply Qle_trans; eassumption.
    + constructor; [exact IH|].
      eapply Permutation_Forall.
      * symmetry. apply insertByConfidence_Permutation.
      * constructor; [|exact Hd]. unfold before.
        apply Qlt_le_weak, Qnot_le_lt. intros Hc.
        apply Qle_bool_iff in Hc. congruence.
Qed.

Lemma sortByConfidence_sorted cs : StronglySorted before (sortByConfidence cs).
Proof.
  induction cs as [|c cs IH]; simpl; [constructor|].
  apply insertByConfidence_sorted, IH.
Qed.

Lemma uniqueBy_In seen cs r :
  In r (uniqueBy seen cs) -> In r cs /\ cvoterId r ∉ seen.
Proof.
  revert seen. induction cs as [|c cs IH]; intros seen; simpl; [tauto|].
  case_bool_decide as Hseen.
  - intros Hr. pose proof (IH _ Hr) as [Hin Hnot]. auto.
  - intros [<-|Hr]; [auto|]. pose proof (IH _ Hr) as [Hin Hnot].
    split; [auto|]. apply not_elem_of_union in Hnot as [_ Hnot]. exact Hnot.
Qed.

Lemma uniqueBy_NoDup seen cs : NoDup (List.map cvoterId (uniqueBy seen cs)).
Proof.
  revert seen. induction cs as [|c cs IH]; intros seen; simpl; [constructor|].
  case_bool_decide as Hseen; [apply IH|].
  simpl. constructor; [|apply IH].
  intros Hin%list_elem_of_In. apply in_map_iff in Hin as (r & Hid & Hr).
  apply uniqueBy_In in Hr as [_ Hr]. rewrite Hid in Hr.
  apply Hr, elem_of_union. left. apply elem_of_singleton. reflexivity.
Qed.

Lemma uniqueBy_complete seen cs c :
  In c cs -> cvoterId c ∉ seen ->
  exists r, In r (uniqueBy seen cs) /\ cvoterId r = cvoterId c.
Proof.
  revert seen. induction cs as [|c0 cs IH]; intros seen; simpl; [tauto|].
  intros [->|Hin] Hnot.
  - rewrite bool_decide_eq_false_2 by exact Hnot. exists c. simpl. auto.
  - case_bool_decide as Hseen; [apply IH; assumption|].
    destruct (decide (cvoterId c0 = cvoterId c)) as [Heq|Hne].
    + exists c0. simpl. auto.
    + assert (Hnot' : cvoterId c ∉ {[cvoterId c0]} ∪ seen).
      { apply not_elem_of_union. split; [|exact Hnot].
        apply not_elem_of_singleton. congruence. }
      pose proof (IH _ Hin Hnot') as (r & Hr & Hid).
      exists r. simpl. auto.
Qed.

Lemma uniqueBy_highest seen cs r c :
  StronglySorted before cs ->
  In r (uniqueBy seen cs) -> In c cs -> cvoterId c = cvoterId r ->
  (cconfidence c <= cconfidence r)%Q.
Proof.
  intros Hs. revert seen. induction Hs as [|c0 cs Hs IH Hall]; intros seen; simpl;
    [tauto|].
  case_bool_decide as Hseen.
  - intros Hr [->|Hc] Hid; [|eapply IH; eassumption].
    apply uniqueBy_In in Hr as [_ Hr]. rewrite <- Hid in Hr. contradiction.
  - intros [<-|Hr] [<-|Hc] Hid.
    + apply Qle_refl.
    + rewrite Forall_forall in Hall. apply (Hall c), list_elem_of_In, Hc.
    + apply uniqueBy_In in Hr as [_ Hr]. rewrite <- Hid in Hr.
      exfalso. apply Hr, elem_of_union. left. apply elem_of_singleton. reflexivity.
    + eapply IH; eassumption.
Qed.

Lemma buildBlocks_ids i cs ws h :
  List.map Ocr.voterId (buildBlocks i cs ws h) = List.map cvoterId cs.
Proof.
  revert i. induction cs as [|c cs IH]; intros i; simpl; [reflexivity|].
  rewrite IH. reflexivity.
Qed.

Lemma buildBlocks_In i cs ws h b :
  In b (buildBlocks i cs ws h) ->
  exists c, In c cs /\ Ocr.voterId b = cvoterId c
            /\ confidence b = cconfidence c
            /\ referenceWord b = RefWord (cword c).
Proof.
  revert i. induction cs as [|c cs IH]; intros i; simpl; [tauto|].
  intros [<-|Hb].
  - exists c. simpl. auto.
  - pose proof (IH _ Hb) as (c' & Hc' & H). exists c'. auto.
Qed.

Lemma NoDup_one_occurrence {A B} `{EqDecision B} (f : A -> B) (l : list A) x :
  NoDup (List.map f l) -> In x (List.map f l) ->
  length (List.filter (fun a => bool_decide (f a = x)) l) = 1%nat.
Proof.
  induction l as [|a l IH]; simpl; [tauto|].
  intros Hnd Hin. apply NoDup_cons in Hnd as [Hnot Hnd].
  case_bool_decide as Ha.
  - simpl. f_equal. apply length_zero_iff_nil.
    destruct (List.filter (λ a0 : A, bool_decide (f a0 = x)) l) as [|y ys] eqn:Hf;
      [reflexivity|].
    assert (Hy : In y (List.filter (λ a0 : A, bool_decide (f a0 = x)) l))
      by (rewrite Hf; left; reflexivity).
    apply filter_In in Hy as [Hy Hfy]. apply bool_decide_eq_true in Hfy.
    exfalso. apply Hnot. apply list_elem_of_In. rewrite Ha, <- Hfy.
    apply in_map. exact Hy.
  - destruct Hin as [Hin|Hin]; [contradiction|]. apply IH; assumption.
Qed.

Lemma wordCandidates_strict toUpperCase w :
  voterIdPattern (cleanText toUpperCase (text w)) = true ->
  wordCandidates toUpperCase w
  = [ {| cword := w; cvoterId := cleanText toUpperCase (text w);
         cconfidence := wconfidence w |} ].
Proof. intros H. unfold wordCandidates. rewrite H. reflexivity. Qed.

(** C3.  For every word of the page whose cleaned text matches the strict
    pattern, exactly one block of the anchor detector carries that text as
    its id; the block comes from a candidate with this id, and no candidate
    with this id has a higher confidence. *)
Theorem anchor_ids_unique (toUpperCase : jsstring -> jsstring) (d : data)
    (w : word) :
  In w (words d) ->
  voterIdPattern (cleanText toUpperCase (text w)) = true ->
  let id := cleanText toUpperCase (text w) in
  let out := findVoterBlockBoundaries toUpperCase d in
  length (List.filter (fun b => bool_decide (Ocr.voterId b = id)) out) = 1%nat
  /\ forall b, In b out -> Ocr.voterId b = id ->
       (exists c, In c (voterIdCandidates toUpperCase (words d))
                  /\ cvoterId c = id
                  /\ cconfidence c = confidence b
                  /\ referenceWord b = RefWord (cword c))
       /\ (forall c, In c (voterIdCandidates toUpperCase (words d)) ->
                     cvoterId c = id ->
                     (cconfidence c <= confidence b)%Q).
Proof.
  intros Hw Hstrict id out.
  set (cands := voterIdCandidates toUpperCase (words d)).
  set (sorted := sortByConfidence cands).
  assert (Hperm : forall c, In c sorted <-> In c cands).
  { intros c. split; apply Permutation_in;
      [|symmetry]; apply sortByConfidence_Permutation. }
  assert (Hcand : exists c0, In c0 cands /\ cvoterId c0 = id).
  { eexists. split.
    - apply in_or_app. left. apply in_flat_map. exists w. split; [exact Hw|].
      rewrite (wordCandidates_strict _ _ Hstrict). left. reflexivity.
    - reflexivity. }
  split.
  - apply NoDup_one_occurrence.
    + unfold out, findVoterBlockBoundaries. rewrite buildBlocks_ids.
      apply uniqueBy_NoDup.
    + unfold out, findVoterBlockBoundaries. rewrite buildBlocks_ids.
      destruct Hcand as (c0 & Hc0 & Hid0).
      destruct (uniqueBy_complete ∅ sorted c0) as (r & Hr & Hidr).
      * apply Hperm, Hc0.
      * apply not_elem_of_empty.
      * rewrite <- Hid0, <- Hidr. apply in_map. exact Hr.
  - intros b Hb Hid.
    apply buildBlocks_In in Hb as (r & Hr & Hbid & Hbconf & Hbref).
    split.
    + exists r. repeat split.
      * apply Hperm. eapply uniqueBy_In, Hr.
      * congruence.
      * congruence.
      * exact Hbref.
    + intros c Hc Hcid. rewrite Hbconf.
      apply (uniqueBy_highest ∅ sorted r c).
      * apply sortByConfidence_sorted.
      * exact Hr.
      * apply Hperm, Hc.
      * congruence.
Qed.

Lemma anchor_ids_unique_witness :
  In wordA (words page)
  /\ voterIdPattern (cleanText asciiUpperCase (text wordA)) = true
  /\ length (List.filter
               (fun b => bool_decide
                           (Ocr.voterId b = cleanText asciiUpperCase (text wordA)))
               (findVoterBlockBoundaries asciiUpperCase page)) = 1%nat.
Proof.
  assert (Hin : In wordA (words page)) by (left; reflexivity).
  assert (Hid : voterIdPattern (cleanText asciiUpperCase (text wordA)) = true)
    by reflexivity.
  split; [exact Hin|]. split; [exact Hid|].
  exact (proj1 (anchor_ids_unique asciiUpperCase page wordA Hin Hid)).
Defined.

(** ** Boundary calculator *)

Lemma minOf_le xs a : minOf xs a <= a.
Proof. induction xs as [|x xs IH]; simpl; lia. Qed.

Lemma maxOf_ge xs a : a <= maxOf xs a.
Proof. induction xs as [|x xs IH]; simpl; lia. Qed.

(** The two bounds of the vertical extent, before the clamps: the refined
    bottom never exceeds the provisional one, and with well-formed word
    boxes it does not rise above the anchor's top. *)
Lemma bottom_refinement (currentY bottomY : Z) (allWords : list word) :
  let blockWords :=
    List.filter (fun w => (y0 (wbbox w) >=? currentY - margin)
                          && (y0 (wbbox w) <=? bottomY))%bool allWords in
  let refined :=
    match List.map (fun w => y1 (wbbox w)) blockWords with
    | [] => bottomY
    | m :: ms => Z.min (maxOf ms m + margin) bottomY
    end in
  refined <= bottomY
  /\ ((forall w, In w allWords -> y0 (wbbox w) <= y1 (wbbox w)) ->
      Z.min currentY bottomY <= refined).
Proof.
  intros blockWords refined. subst refined.
  destruct blockWords as [|w1 rest] eqn:Hbw; simpl.
  - split; [lia|]. intros _. lia.
  - split; [lia|]. intros Hwf.
    assert (Hin : In w1 blockWords) by (rewrite Hbw; left; reflexivity).
    apply filter_In in Hin as [Hin Hband].
    apply Bool.andb_true_iff in Hband as [Hlo _]. apply Z.geb_le in Hlo.
    pose proof (Hwf w1 Hin) as Hbox.
    pose proof (maxOf_ge (List.map (fun w => y1 (wbbox w)) rest) (y1 (wbbox w1))).
    unfold margin in *. lia.
Qed.

(** With the anchor at a non-negative height, the block built against a
    given next word ends at or above the top of that word. *)
Lemma boundary_stops_before_given_next (cur next : word) (allWords : list word)
    (imageHeight : Z) :
  0 <= y0 (wbbox cur) ->
  let b := calculateBlockBoundary cur (Some next) allWords imageHeight in
  y b + height b <= y0 (wbbox next).
Proof.
  intros Hy b. subst b. unfold calculateBlockBoundary. cbn [y height].
  match goal with
  | |- context [List.filter ?f allWords] =>
      pose proof (bottom_refinement (y0 (wbbox cur))
                    (Z.min (y0 (wbbox next) - margin) (y0 (wbbox cur) + blockHeight))
                    allWords) as [Hup _]
  end.
  cbv zeta in Hup. unfold margin, blockHeight in *. lia.
Qed.




(** C2: the anchors of [page] stand at y = 100, 200 and 1000, and the
    detector orders them by confidence, so the block of the first anchor is
    bounded by the anchor at y = 1000.  It reaches down to y = 240, below
    the top of the anchor that follows it on the page (y = 200). *)
Theorem anchor_block_overlaps_next_anchor :
  exists b rest,
    findVoterBlockBoundaries asciiUpperCase page = b :: rest
    /\ referenceWord b = RefWord wordA
    /\ y (bboundary b) + height (bboundary b) = 240
    /\ y0 (wbbox wordA) < y0 (wbbox wordB)
    /\ y0 (wbbox wordB) < y (bboundary b) + height (bboundary b).
Proof.
  eexists. eexists. split.
  - vm_compute. reflexivity.
  - simpl. split; [reflexivity|]. split; [reflexivity|]. split; lia.
Qed.

(** ** Translation cache *)

Lemma trimStart_In s c : In c (trimStart s) -> In c s.
Proof.
  induction s as [|a s IH]; simpl; [tauto|].
  destruct (isSpace a); simpl; tauto.
Qed.

Lemma trim_In s c : In c (trim s) -> In c s.
Proof.
  unfold trim, trimEnd. intros H.
  apply in_rev, trimStart_In, in_rev in H. apply trimStart_In, H.
Qed.

Lemma collapseSpaces_In b s c :
  In c (collapseSpaces b s) -> In c s \/ c = 32%N.
Proof.
  revert b. induction s as [|a s IH]; intros b; simpl; [tauto|].
  destruct (isSpace a); [destruct b|]; simpl; intros H;
    repeat match goal with
           | H : _ \/ _ |- _ => destruct H
           | H : In _ (collapseSpaces _ _) |- _ => apply IH in H
           end; auto.
Qed.

Lemma normalizeText_In text c :
  In c (normalizeText text) -> In c text \/ c = 32%N.
Proof.
  unfold normalizeText. intros H. apply filter_In in H as [H _].
  apply collapseSpaces_In in H as [H|H]; [left; apply trim_In, H|right; exact H].
Qed.

(** Normalization brings in no Odia code unit. *)
Lemma normalizeText_not_odia text :
  isOdiaText text = false -> isOdiaText (normalizeText text) = false.
Proof.
  unfold isOdiaText. rewrite !existsb_false_iff. intros H c Hc.
  apply normalizeText_In in Hc as [Hc| ->]; [apply H, Hc|reflexivity].
Qed.

Lemma normalizeText_blank text : trim text = [] -> normalizeText text = [].
Proof. intros H. unfold normalizeText. rewrite H. reflexivity. Qed.

Section ServiceFacts.

Variable translate : list jsstring -> jsstring -> response.

(** Every call ends at the assignment to the module namespace object:
    it rejects, and neither the translator nor the world has changed. *)
Lemma translateToEnglish_rejects text t w :
  translateToEnglish translate text t w = (Rejected TypeError, t, w).
Proof. reflexivity. Qed.

(** C7.  On the text ["Hi"], which holds no Odia code unit, is shorter
    than 3 and is its own normalized form, the call does not return the
    text: it rejects with a [TypeError].  The same happens on every
    text, so the returns of the short circuit are never reached. *)
Theorem translate_short_circuit_rejects (t : translator) (w : world) :
  isOdiaText (lit "Hi") = false
  /\ (length (normalizeText (lit "Hi")) < 3)%nat
  /\ normalizeText (lit "Hi") = lit "Hi"
  /\ translateToEnglish translate (lit "Hi") t w = (Rejected TypeError, t, w)
  /\ forall text r,
       fst (fst (translateToEnglish translate text t w)) <> Resolved r.
Proof.
  split; [reflexivity|]. split; [vm_compute; lia|]. split; [reflexivity|].
  split; [apply translateToEnglish_rejects|].
  intros text r. rewrite translateToEnglish_rejects. discriminate.
Qed.


End ServiceFacts.


(** ** Field extraction *)

(** The extractor on the block text of the specification's end-to-end
    example. *)
Example extractKeyValues_rollLine :
  extractKeyValues rollLine !! lit "name" = Some (odia (vname sampleVoter))
  /\ extractKeyValues rollLine !! lit "age" = Some (lit "37")
  /\ extractKeyValues rollLine !! lit "guardianName"
     = Some (odia (snd (relation sampleVoter))).
Proof. vm_compute. repeat split; reflexivity. Qed.

(** C9: on ["Name: Age: 30"] the group [(.+?)] must take at least one
    code unit, so the value of [name] starts on the label that follows and
    runs to the end of the input; extracting from this value finds the
    field [age] again. *)
Theorem extractKeyValues_nested_field :
  extractKeyValues (lit "Name: Age: 30") !! lit "name" = Some (lit "Age: 30")
  /\ extractKeyValues (lit "Age: 30") !! lit "age" = Some (lit "30")
  /\ extractKeyValues (lit "Age: 30") <> ∅.
Proof.
  assert (Hage : extractKeyValues (lit "Age: 30") !! lit "age" = Some (lit "30"))
    by (vm_compute; reflexivity).
  split; [vm_compute; reflexivity|]. split; [exact Hage|].
  intros Hempty. rewrite Hempty, lookup_empty in Hage. discriminate.
Qed.

(** * Further properties *)

(** ** Grid fallback: layout *)

Lemma gridCell_fits W H row col blocks i :
  gridMargin W + row * rowHeight + rowHeight <= H ->
  0 <= col < cols -> i = cols * row + col -> 0 <= row ->
  gridCell W H row col (blocks, i) = (blocks ++ [gridBlockAt W i], i + 1).
Proof.
  intros Hfit Hcol -> Hrow. unfold gridCell.
  destruct (Z.gtb_spec (gridMargin W + row * rowHeight + rowHeight) H) as [Hgt|_];
    [lia|].
  unfold gridBlockAt.
  assert (Hmod : (cols * row + col) mod cols = col).
  { rewrite Z.add_comm, Z.mul_comm, Z_mod_plus_full. apply Z.mod_small. exact Hcol. }
  assert (Hdiv : (cols * row + col) / cols = row).
  { unfold cols in *. rewrite Z.add_comm, Z.mul_comm, Z_div_plus_full by lia.
    rewrite Z.div_small by lia. lia. }
  rewrite Hmod, Hdiv. reflexivity.
Qed.

Lemma gridRow_fits W H row blocks :
  gridMargin W + row * rowHeight + rowHeight <= H -> 0 <= row ->
  forRange 0 cols (gridCell W H row) (blocks, cols * row)
  = (blocks ++ [gridBlockAt W (cols * row); gridBlockAt W (cols * row + 1);
                gridBlockAt W (cols * row + 2)],
     cols * (row + 1)).
Proof.
  intros Hfit Hrow. unfold forRange.
  change (seqZ 0 (cols - 0)) with [0; 1; 2]. cbn [fold_left].
  rewrite (gridCell_fits W H row 0 blocks (cols * row)) by (unfold cols; lia).
  rewrite (gridCell_fits W H row 1 _ (cols * row + 1)) by (unfold cols; lia).
  rewrite (gridCell_fits W H row 2 _ (cols * row + 1 + 1)) by (unfold cols; lia).
  rewrite <- !app_assoc. cbn [app].
  replace (cols * row + 1 + 1) with (cols * row + 2) by lia.
  f_equal. unfold cols. lia.
Qed.

Lemma seqZ_three k : seqZ k 3 = [k; k + 1; k + 2].
Proof.
  rewrite <- (Z.add_0_r k) at 1. rewrite <- fmap_add_seqZ.
  change (seqZ 0 3) with [0; 1; 2]. cbn. rewrite Z.add_0_r. reflexivity.
Qed.

Lemma grid_rows_prefix W H (n : nat) :
  (forall row, 0 <= row < Z.of_nat n ->
               gridMargin W + row * rowHeight + rowHeight <= H) ->
  fold_left (fun acc row => forRange 0 cols (gridCell W H row) acc)
    (seqZ 0 (Z.of_nat n)) ([], 0)
  = (gridBlockAt W <$> seqZ 0 (cols * Z.of_nat n), cols * Z.of_nat n).
Proof.
  induction n as [|n IH]; intros Hfit.
  - reflexivity.
  - rewrite seqZ_S, fold_left_app, IH by (intros; apply Hfit; lia). cbn [fold_left].
    rewrite Z.add_0_l, gridRow_fits by (try apply Hfit; lia).
    f_equal; [|lia].
    replace (cols * Z.of_nat (S n)) with (cols * Z.of_nat n + 3)
      by (unfold cols; lia).
    rewrite seqZ_app by (unfold cols; lia). rewrite fmap_app. f_equal.
    rewrite Z.add_0_l, seqZ_three. reflexivity.
Qed.

Lemma detectBlocksByGrid_layout W H :
  0 < W ->
  detectBlocksByGrid W H
  = gridBlockAt W <$> seqZ 0 (cols * Z.max 0 (gridRows W H)).
Proof.
  intros HW. unfold detectBlocksByGrid, forRange at 1. rewrite Z.sub_0_r.
  destruct (Z.le_gt_cases (gridRows W H) 0) as [Hle|Hgt].
  - rewrite (seqZ_nil 0 (gridRows W H)) by lia.
    rewrite (seqZ_nil 0 (cols * _)) by (unfold cols; lia). reflexivity.
  - assert (Hfit : forall row, 0 <= row < gridRows W H ->
                     gridMargin W + row * rowHeight + rowHeight <= H)
      by (intros row Hrow; apply grid_row_fits; assumption).
    revert Hfit. replace (gridRows W H) with (Z.of_nat (Z.to_nat (gridRows W H)))
      by lia.
    intros Hfit. rewrite grid_rows_prefix by exact Hfit.
    cbn [fst]. f_equal. f_equal. lia.
Qed.

(** X1.  Block number [i] of the grid is the cell in row [i / 3] and column
    [i mod 3]: it carries the index [i], the id [GRID_<i+1>], the confidence
    70 and the rectangle of that cell. *)
Theorem grid_block_layout (W H : Z) (i : nat) (b : block) :
  0 < W ->
  detectBlocksByGrid W H !! i = Some b ->
  let m := W / 50 in
  let cw := (W - 4 * m) / 3 in
  blockIndex b = Z.of_nat i
  /\ Ocr.voterId b = lit "GRID_" ++ ofZ (Z.of_nat i + 1)
  /\ bboundary b = {| x := m + (Z.of_nat i mod 3) * (cw + m);
                      y := m + (Z.of_nat i / 3) * 200;
                      width := cw; height := 200 |}
  /\ confidence b = 70%Q.
Proof.
  intros HW Hb m cw. rewrite detectBlocksByGrid_layout in Hb by exact HW.
  apply list_lookup_fmap_Some in Hb as (k & -> & Hk).
  apply lookup_seqZ in Hk as [-> _]. rewrite Z.add_0_l.
  unfold gridBlockAt, cols, rowHeight. cbn.
  rewrite gridMargin_eq. subst m cw.
  replace (W `div` 50 * 4) with (4 * (W `div` 50)) by lia.
  repeat split.
Qed.

Lemma grid_block_layout_witness :
  0 < 2480
  /\ detectBlocksByGrid 2480 3508 !! 4%nat = Some (gridBlockAt 2480 4)
  /\ bboundary (gridBlockAt 2480 4)
     = {| x := 49 + 1 * (761 + 49); y := 49 + 1 * 200; width := 761; height := 200 |}.
Proof.
  assert (Hb : detectBlocksByGrid 2480 3508 !! 4%nat = Some (gridBlockAt 2480 4))
    by reflexivity.
  split; [lia|]. split; [exact Hb|].
  exact (proj1 (proj2 (proj2 (grid_block_layout 2480 3508 4 _ eq_refl Hb)))).
Defined.

Lemma grid_geometry W :
  0 < W ->
  0 <= gridMargin W /\ 0 <= (W - gridMargin W * 4) / cols
  /\ 3 * ((W - gridMargin W * 4) / cols) + 4 * gridMargin W <= W.
Proof.
  intros HW. rewrite gridMargin_eq. unfold cols.
  pose proof (Z.mul_div_le W 50 ltac:(lia)).
  assert (0 <= W / 50) by (apply Z.div_pos; lia).
  pose proof (Z.mul_div_le (W - W / 50 * 4) 3 ltac:(lia)).
  assert (0 <= (W - W / 50 * 4) / 3) by (apply Z.div_pos; lia).
  lia.
Qed.

(** X2.  On a page of positive size every grid block lies inside the page:
    its corner is non-negative, its width is non-negative, its height is
    200, and its right and bottom edges do not pass the page width and
    height. *)
Theorem grid_blocks_inside_page (W H : Z) (b : block) :
  0 < W -> 0 < H ->
  In b (detectBlocksByGrid W H) ->
  0 <= x (bboundary b) /\ 0 <= y (bboundary b)
  /\ 0 <= width (bboundary b) /\ height (bboundary b) = 200
  /\ x (bboundary b) + width (bboundary b) <= W
  /\ y (bboundary b) + height (bboundary b) <= H.
Proof.
  intros HW HH Hb. rewrite detectBlocksByGrid_layout in Hb by exact HW.
  apply list_elem_of_In, list_elem_of_fmap in Hb as (k & -> & Hk).
  apply elem_of_seqZ in Hk.
  destruct (grid_geometry W HW) as (Hm & Hcw & Hsum).
  assert (Hrow : 0 <= k / cols < gridRows W H).
  { unfold cols in *. split; [apply Z.div_pos; lia|].
    apply Z.div_lt_upper_bound; lia. }
  pose proof (grid_row_fits W H (k / cols) HW Hrow) as Hfit.
  pose proof (Z.mod_pos_bound k cols ltac:(unfold cols; lia)) as Hcol.
  unfold gridBlockAt. cbn [bboundary x y width height].
  unfold cols, rowHeight in *.
  repeat apply conj; try lia; nia.
Qed.

Lemma grid_blocks_inside_page_witness :
  0 < 2480 /\ 0 < 3508
  /\ In (gridBlockAt 2480 50) (detectBlocksByGrid 2480 3508)
  /\ x (bboundary (gridBlockAt 2480 50)) + width (bboundary (gridBlockAt 2480 50))
     <= 2480
  /\ y (bboundary (gridBlockAt 2480 50)) + height (bboundary (gridBlockAt 2480 50))
     <= 3508.
Proof.
  assert (Hin : In (gridBlockAt 2480 50) (detectBlocksByGrid 2480 3508)).
  { apply list_elem_of_In, list_elem_of_lookup. exists 50%nat. reflexivity. }
  split; [lia|]. split; [lia|]. split; [exact Hin|].
  apply (grid_blocks_inside_page 2480 3508 _ ltac:(lia) ltac:(lia) Hin).
Defined.

(** X3.  Two different blocks of the grid never overlap. *)
Theorem grid_blocks_disjoint (W H : Z) (i j : nat) (bi bj : block) :
  0 < W -> i <> j ->
  detectBlocksByGrid W H !! i = Some bi ->
  detectBlocksByGrid W H !! j = Some bj ->
  disjoint (bboundary bi) (bboundary bj).
Proof.
  intros HW Hne Hi Hj. rewrite detectBlocksByGrid_layout in Hi, Hj by exact HW.
  apply list_lookup_fmap_Some in Hi as (ki & -> & Hi).
  apply list_lookup_fmap_Some in Hj as (kj & -> & Hj).
  apply lookup_seqZ in Hi as [-> _]. apply lookup_seqZ in Hj as [-> _].
  rewrite !Z.add_0_l.
  destruct (grid_geometry W HW) as (Hm & Hcw & _).
  unfold disjoint, gridBlockAt. cbn [bboundary x y width height].
  set (m := gridMargin W) in *. set (cw := (W - m * 4) / cols) in *.
  pose proof (Z.div_mod (Z.of_nat i) cols ltac:(unfold cols; lia)) as Hdi.
  pose proof (Z.div_mod (Z.of_nat j) cols ltac:(unfold cols; lia)) as Hdj.
  pose proof (Z.mod_pos_bound (Z.of_nat i) cols ltac:(unfold cols; lia)) as Hci.
  pose proof (Z.mod_pos_bound (Z.of_nat j) cols ltac:(unfold cols; lia)) as Hcj.
  set (ri := Z.of_nat i / cols) in *. set (rj := Z.of_nat j / cols) in *.
  set (ci := Z.of_nat i mod cols) in *. set (cj := Z.of_nat j mod cols) in *.
  unfold rowHeight.
  destruct (Z.lt_trichotomy ri rj) as [Hr|[Hr|Hr]].
  - right; right; left. nia.
  - assert (Hc : ci <> cj) by (intros Hc; apply Hne; nia).
    destruct (Z.lt_trichotomy ci cj) as [Hlt|[Heq|Hgt]]; [|contradiction|].
    + left. nia.
    + right; left. nia.
  - right; right; right. nia.
Qed.

Lemma grid_blocks_disjoint_witness :
  0 < 2480 /\ 0%nat <> 1%nat
  /\ disjoint (bboundary (gridBlockAt 2480 0)) (bboundary (gridBlockAt 2480 1)).
Proof.
  split; [lia|]. split; [discriminate|].
  apply (grid_blocks_disjoint 2480 3508 0 1); [lia|discriminate| |]; reflexivity.
Defined.

(** ** Structural fallback: the groups *)

(** How one more line changes the groups. *)
Lemma groupLines_snoc ls l :
  (ls = [] /\ groupLines (ls ++ [l]) = [freshGroup l])
  \/ exists init cb,
       groupLines ls = init ++ [cb]
       /\ groupLines (ls ++ [l])
          = if y0 (lbbox l) - maxY cb <? spaceThreshold
            then init ++ [joinGroup cb l]
            else init ++ [cb; freshGroup l].
Proof.
  destruct ls as [|l0 ls'] eqn:Hls; [left; split; reflexivity|]. right.
  rewrite <- Hls. assert (Hne : ls <> []) by (rewrite Hls; discriminate).
  unfold groupLines. rewrite fold_left_app. simpl.
  pose proof (fold_groupStep_current ls ([], None) Hne) as [cb Hcb].
  destruct (fold_left groupStep ls ([], None)) as [blocks cur].
  simpl in Hcb. subst cur. exists blocks, cb. split; [reflexivity|]. simpl.
  destruct (y0 (lbbox l) - maxY cb <? spaceThreshold); [reflexivity|].
  rewrite <- app_assoc. reflexivity.
Qed.

Lemma groupLines_nil : groupLines [] = [].
Proof. reflexivity. Qed.

Lemma groupLines_concat (ls : list line) :
  concat (glines <$> groupLines ls) = ls
  /\ forall g, In g (groupLines ls) -> glines g <> [].
Proof.
  induction ls as [|l ls [IHc IHn]] using rev_ind; [split; [reflexivity|tauto]|].
  destruct (groupLines_snoc ls l) as [[-> ->]|(init & cb & Hg & ->)].
  - split; [reflexivity|]. intros g [<-|[]]. discriminate.
  - rewrite Hg in IHc, IHn. rewrite fmap_app, concat_app in IHc. simpl in IHc.
    rewrite app_nil_r in IHc.
    destruct (y0 (lbbox l) - maxY cb <? spaceThreshold).
    + split.
      * rewrite fmap_app, concat_app, <- IHc. simpl.
        rewrite <- !app_assoc. reflexivity.
      * intros g Hin. apply in_app_or in Hin as [Hin|[<-|[]]].
        -- apply IHn, in_or_app. left. exact Hin.
        -- simpl. destruct (glines cb); discriminate.
    + split.
      * rewrite fmap_app, concat_app, <- IHc. simpl.
        rewrite <- !app_assoc. reflexivity.
      * intros g Hin. apply in_app_or in Hin as [Hin|[<-|[<-|[]]]].
        -- apply IHn, in_or_app. left. exact Hin.
        -- apply IHn, in_or_app. right. left. reflexivity.
        -- discriminate.
Qed.

(** X4.  The groups partition the lines: read one after the other they
    give back the lines in their order, and no group is empty. *)
Theorem groupLines_partition (ls : list line) :
  concat (glines <$> groupLines ls) = ls
  /\ forall g, In g (groupLines ls) -> glines g <> [].
Proof.
  exact (groupLines_concat ls).
Qed.

Lemma tightBox_fresh l : tightBox (freshGroup l).
Proof.
  unfold tightBox, freshGroup. simpl. split; [eauto|].
  split; [intros l' [<-|[]]; lia|]. repeat split; exists l; auto.
Qed.

Lemma tightBox_join g l : tightBox g -> tightBox (joinGroup g l).
Proof.
  intros ((l0 & rest & Hl & Htop) & Hcover & (lx & Hlx & Hminx)
          & (lX & HlX & Hmaxx) & (lY & HlY & Hmaxy)).
  unfold tightBox, joinGroup. simpl. split; [|split; [|split; [|split]]].
  - exists l0, (rest ++ [l]). rewrite Hl. auto.
  - intros l' Hin. apply in_app_or in Hin as [Hin|[<-|[]]]; [|lia].
    specialize (Hcover l' Hin). lia.
  - destruct (Z.le_ge_cases (minX g) (x0 (lbbox l))).
    + exists lx. split; [apply in_or_app; auto|lia].
    + exists l. split; [apply in_or_app; simpl; auto|lia].
  - destruct (Z.le_ge_cases (x1 (lbbox l)) (maxX g)).
    + exists lX. split; [apply in_or_app; auto|lia].
    + exists l. split; [apply in_or_app; simpl; auto|lia].
  - destruct (Z.le_ge_cases (y1 (lbbox l)) (maxY g)).
    + exists lY. split; [apply in_or_app; auto|lia].
    + exists l. split; [apply in_or_app; simpl; auto|lia].
Qed.

Lemma groupLines_tight (ls : list line) (g : group) :
  In g (groupLines ls) -> tightBox g.
Proof.
  revert g. induction ls as [|l ls IH] using rev_ind; [intros g []|].
  intros g Hin.
  destruct (groupLines_snoc ls l) as [[-> Heq]|(init & cb & Hg & Heq)];
    rewrite Heq in Hin.
  - destruct Hin as [<-|[]]. apply tightBox_fresh.
  - rewrite Hg in IH.
    destruct (y0 (lbbox l) - maxY cb <? spaceThreshold).
    + apply in_app_or in Hin as [Hin|[<-|[]]].
      * apply IH, in_or_app. auto.
      * apply tightBox_join, IH, in_or_app. simpl. auto.
    + apply in_app_or in Hin as [Hin|[<-|[<-|[]]]].
      * apply IH, in_or_app. auto.
      * apply IH, in_or_app. simpl. auto.
      * apply tightBox_fresh.
Qed.

(** X5.  The box of every group starts at the top of the group's first
    line and is the bounding box of its lines to the left, to the right and
    at the bottom. *)
Theorem groupLines_boxes (ls : list line) (g : group) :
  In g (groupLines ls) -> tightBox g.
Proof.
  exact (groupLines_tight ls g).
Qed.

Lemma groupLines_boxes_witness :
  In (joinGroup (freshGroup lineA)
        {| ltext := lit "x"; lbbox := {| x0 := 5; y0 := 30; x1 := 200; y1 := 45 |} |})
     (groupLines [lineA; {| ltext := lit "x";
                            lbbox := {| x0 := 5; y0 := 30; x1 := 200; y1 := 45 |} |}])
  /\ tightBox (joinGroup (freshGroup lineA)
                 {| ltext := lit "x";
                    lbbox := {| x0 := 5; y0 := 30; x1 := 200; y1 := 45 |} |}).
Proof.
  assert (Hin : In (joinGroup (freshGroup lineA)
                      {| ltext := lit "x";
                         lbbox := {| x0 := 5; y0 := 30; x1 := 200; y1 := 45 |} |})
                   (groupLines [lineA; {| ltext := lit "x";
                                          lbbox := {| x0 := 5; y0 := 30;
                                                      x1 := 200; y1 := 45 |} |}]))
    by (left; reflexivity).
  split; [exact Hin|]. exact (groupLines_boxes _ _ Hin).
Defined.

(** X6.  Between the bottom of a group and the top of the group after it
    lie at least 40 pixels. *)
Theorem groupLines_separated (ls : list line) (i : nat) (g1 g2 : group) :
  groupLines ls !! i = Some g1 ->
  groupLines ls !! S i = Some g2 ->
  40 <= minY g2 - maxY g1.
Proof.
  revert i g1 g2. induction ls as [|l ls IH] using rev_ind; [intros i g1 g2 [=]|].
  intros i g1 g2 H1 H2.
  destruct (groupLines_snoc ls l) as [[-> Heq]|(init & cb & Hg & Heq)];
    rewrite Heq in H1, H2.
  - destruct i; discriminate.
  - rewrite Hg in IH. unfold spaceThreshold in *.
    destruct (Z.ltb_spec (y0 (lbbox l) - maxY cb) 40) as [Hlt|Hge].
    + destruct (decide (S i < length init)%nat) as [Hin|Hout].
      * apply (IH i g1 g2).
        -- rewrite lookup_app_l in H1 |- * by lia. exact H1.
        -- rewrite lookup_app_l in H2 |- * by lia. exact H2.
      * apply lookup_lt_Some in H2 as Hlen. rewrite length_app in Hlen.
        simpl in Hlen. assert (S i = length init) as Hi by lia.
        rewrite lookup_app_l in H1 by lia.
        rewrite Hi, list_lookup_middle in H2 by reflexivity.
        injection H2 as <-. simpl.
        apply (IH i g1 cb).
        -- rewrite lookup_app_l by lia. exact H1.
        -- rewrite Hi. apply list_lookup_middle. reflexivity.
    + destruct (decide (S i <= length init)%nat) as [Hin|Hout].
      * apply (IH i g1 g2).
        -- rewrite lookup_app_l in H1 |- * by lia. exact H1.
        -- destruct (decide (S i = length init)) as [Hi|Hi].
           ++ rewrite Hi in H2 |- *.
              rewrite list_lookup_middle in H2 |- * by reflexivity. exact H2.
           ++ rewrite lookup_app_l in H2 |- * by lia. exact H2.
      * apply lookup_lt_Some in H2 as Hlen. rewrite length_app in Hlen.
        simpl in Hlen. assert (i = length init) as Hi by lia. subst i.
        rewrite list_lookup_middle in H1 by reflexivity. injection H1 as <-.
        rewrite lookup_app_r in H2 by lia.
        replace (S (length init) - length init)%nat with 1%nat in H2 by lia.
        injection H2 as <-. simpl. lia.
Qed.

Lemma groupLines_separated_witness :
  groupLines [lineA; lineB] !! 0%nat = Some (freshGroup lineA)
  /\ groupLines [lineA; lineB] !! 1%nat = Some (freshGroup lineB)
  /\ 40 <= minY (freshGroup lineB) - maxY (freshGroup lineA).
Proof.
  assert (H1 : groupLines [lineA; lineB] !! 0%nat = Some (freshGroup lineA))
    by reflexivity.
  assert (H2 : groupLines [lineA; lineB] !! 1%nat = Some (freshGroup lineB))
    by reflexivity.
  split; [exact H1|]. split; [exact H2|].
  exact (groupLines_separated _ _ _ _ H1 H2).
Defined.

Lemma groupLines_partition_witness :
  concat (glines <$> groupLines [lineA; lineB]) = [lineA; lineB]
  /\ In (freshGroup lineB) (groupLines [lineA; lineB])
  /\ glines (freshGroup lineB) <> [].
Proof.
  assert (Hin : In (freshGroup lineB) (groupLines [lineA; lineB]))
    by (right; left; reflexivity).
  split; [exact (proj1 (groupLines_partition [lineA; lineB]))|].
  split; [exact Hin|].
  exact (proj2 (groupLines_partition [lineA; lineB]) _ Hin).
Defined.

(** ** Structural fallback: the blocks *)

Lemma mapi_lookup {A B} (f : Z -> A -> B) (s : Z) (l : list A) (i : nat) :
  mapi f s l !! i = f (s + Z.of_nat i) <$> l !! i.
Proof.
  revert s i. induction l as [|a l IH]; intros s [|i]; simpl; try reflexivity.
  - rewrite Z.add_0_r. reflexivity.
  - rewrite IH. f_equal. f_equal. lia.
Qed.

Lemma detectBlocksByVisualStructure_groups ls :
  detectBlocksByVisualStructure ls = mapi groupToBlock 0 (groupLines ls).
Proof. destruct ls; reflexivity. Qed.

Lemma groupLines_nonempty ls : ls <> [] -> groupLines ls <> [].
Proof.
  intros Hne Hnil. pose proof (proj1 (groupLines_concat ls)) as Hc.
  rewrite Hnil in Hc. simpl in Hc. congruence.
Qed.

Lemma group_lines_from ls g l :
  In g (groupLines ls) -> In l (glines g) -> In l ls.
Proof.
  intros Hg Hl. rewrite <- (proj1 (groupLines_concat ls)).
  apply in_concat. exists (glines g). split; [|exact Hl].
  apply in_map. exact Hg.
Qed.

(** X7.  When the boxes of the lines are well formed, the structural
    fallback yields at least one block for a non-empty list of lines, and
    block number [i] carries the index [i] and the box of group [i], whose
    width and height are not negative. *)
Theorem structural_blocks_wellformed (ls : list line) :
  (forall l, In l ls ->
     x0 (lbbox l) <= x1 (lbbox l) /\ y0 (lbbox l) <= y1 (lbbox l)) ->
  (ls <> [] -> detectBlocksByVisualStructure ls <> [])
  /\ forall i b, detectBlocksByVisualStructure ls !! i = Some b ->
       blockIndex b = Z.of_nat i
       /\ (exists g, groupLines ls !! i = Some g
                     /\ x (bboundary b) = minX g /\ y (bboundary b) = minY g
                     /\ x (bboundary b) + width (bboundary b) = maxX g
                     /\ y (bboundary b) + height (bboundary b) = maxY g)
       /\ 0 <= width (bboundary b) /\ 0 <= height (bboundary b).
Proof.
  intros Hwf. rewrite detectBlocksByVisualStructure_groups. split.
  - intros Hne Hnil. apply (groupLines_nonempty ls Hne).
    destruct (groupLines ls); [reflexivity|discriminate].
  - intros i b Hb. rewrite mapi_lookup in Hb.
    destruct (groupLines ls !! i) as [g|] eqn:Hg; [|discriminate].
    injection Hb as <-. rewrite Z.add_0_l.
    assert (Hin : In g (groupLines ls)).
    { apply list_elem_of_In, list_elem_of_lookup. eauto. }
    destruct (groupLines_tight ls g Hin)
      as ((l0 & rest & Hl0 & Htop) & Hcover & (lx & Hlx & Hminx) & _).
    assert (Hl0in : In l0 (glines g)) by (rewrite Hl0; left; reflexivity).
    pose proof (Hwf l0 (group_lines_from ls g l0 Hin Hl0in)) as [_ Hy].
    pose proof (Hwf lx (group_lines_from ls g lx Hin Hlx)) as [Hx _].
    pose proof (Hcover l0 Hl0in) as (_ & _ & Hbot).
    pose proof (Hcover lx Hlx) as (_ & Hright & _).
    unfold groupToBlock. cbn [blockIndex bboundary x y width height].
    split; [reflexivity|]. split.
    + exists g. split; [reflexivity|]. split; [reflexivity|].
      split; [reflexivity|]. split; lia.
    + split; lia.
Qed.

Lemma structural_blocks_wellformed_witness :
  (forall l, In l [lineA; lineB] ->
     x0 (lbbox l) <= x1 (lbbox l) /\ y0 (lbbox l) <= y1 (lbbox l))
  /\ [lineA; lineB] <> []
  /\ detectBlocksByVisualStructure [lineA; lineB] <> [].
Proof.
  assert (Hwf : forall l, In l [lineA; lineB] ->
            x0 (lbbox l) <= x1 (lbbox l) /\ y0 (lbbox l) <= y1 (lbbox l)).
  { intros l [<-|[<-|[]]]; simpl; lia. }
  split; [exact Hwf|]. split; [discriminate|].
  apply (structural_blocks_wellformed _ Hwf). discriminate.
Defined.

(** ** Anchor detector: order and identifiers *)

Lemma uniqueBy_sorted seen cs :
  StronglySorted before cs -> StronglySorted before (uniqueBy seen cs).
Proof.
  intros Hs. revert seen. induction Hs as [|c cs Hs IH Hall]; intros seen; simpl;
    [constructor|].
  case_bool_decide; [apply IH|].
  constructor; [apply IH|].
  rewrite Forall_forall in Hall |- *. intros d Hd.
  apply Hall, list_elem_of_In. apply list_elem_of_In in Hd.
  apply uniqueBy_In in Hd as [Hd _]. exact Hd.
Qed.

Lemma buildBlocks_lookup i cs ws h (k : nat) b :
  buildBlocks i cs ws h !! k = Some b ->
  exists c, cs !! k = Some c
            /\ blockIndex b = i + Z.of_nat k
            /\ Ocr.voterId b = cvoterId c
            /\ confidence b = cconfidence c
            /\ referenceWord b = RefWord (cword c).
Proof.
  revert i k. induction cs as [|c cs IH]; intros i [|k]; simpl; try discriminate.
  - intros [= <-]. exists c. simpl. rewrite Z.add_0_r. auto.
  - intros Hb. apply IH in Hb as (c' & Hc' & Hidx & H). exists c'.
    split; [exact Hc'|]. split; [lia|exact H].
Qed.

Lemma sorted_lookup {A} (R : A -> A -> Prop) (l : list A) :
  StronglySorted R l ->
  forall i j a b, l !! i = Some a -> l !! j = Some b -> (i < j)%nat -> R a b.
Proof.
  induction 1 as [|c l Hs IH Hall]; intros i j a b Ha Hb Hlt;
    [rewrite lookup_nil in Ha; discriminate|].
  destruct j as [|j]; [lia|]. simpl in Hb. destruct i as [|i]; simpl in Ha.
  - injection Ha as <-. rewrite Forall_forall in Hall.
    apply Hall, list_elem_of_lookup. eauto.
  - apply (IH i j); [assumption|assumption|lia].
Qed.

(** X8.  The blocks of the anchor detector come in the order of their
    confidence, highest first, whatever their place on the page, and are
    numbered in that order. *)
Theorem anchor_blocks_by_confidence (toUpperCase : jsstring -> jsstring)
    (d : data) (i j : nat) (bi bj : block) :
  findVoterBlockBoundaries toUpperCase d !! i = Some bi ->
  findVoterBlockBoundaries toUpperCase d !! j = Some bj ->
  (i < j)%nat ->
  (confidence bj <= confidence bi)%Q
  /\ blockIndex bi = Z.of_nat i /\ blockIndex bj = Z.of_nat j.
Proof.
  unfold findVoterBlockBoundaries, uniqueVoterIds. intros Hi Hj Hlt.
  apply buildBlocks_lookup in Hi as (ci & Hci & Hidxi & _ & Hconfi & _).
  apply buildBlocks_lookup in Hj as (cj & Hcj & Hidxj & _ & Hconfj & _).
  split; [|split; lia]. rewrite Hconfi, Hconfj.
  pose proof (uniqueBy_sorted ∅ _
                (sortByConfidence_sorted
                   (voterIdCandidates toUpperCase (words d)))) as Hs.
  exact (sorted_lookup before _ Hs i j ci cj Hci Hcj Hlt).
Qed.

Lemma anchor_blocks_by_confidence_witness :
  findVoterBlockBoundaries asciiUpperCase page !! 0%nat
  = Some {| Ocr.voterId := lit "ABC1234567"; blockIndex := 0;
            bboundary := {| x := 90; y := 90; width := 220; height := 150 |};
            referenceWord := RefWord wordA; confidence := 90 |}
  /\ findVoterBlockBoundaries asciiUpperCase page !! 1%nat
     = Some {| Ocr.voterId := lit "GHI1234567"; blockIndex := 1;
               bboundary := {| x := 90; y := 990; width := 220; height := -900 |};
               referenceWord := RefWord wordC; confidence := 80 |}
  /\ (80 <= 90)%Q.
Proof.
  assert (H0 : findVoterBlockBoundaries asciiUpperCase page !! 0%nat
    = Some {| Ocr.voterId := lit "ABC1234567"; blockIndex := 0;
              bboundary := {| x := 90; y := 90; width := 220; height := 150 |};
              referenceWord := RefWord wordA; confidence := 90 |})
    by (vm_compute; reflexivity).
  assert (H1 : findVoterBlockBoundaries asciiUpperCase page !! 1%nat
    = Some {| Ocr.voterId := lit "GHI1234567"; blockIndex := 1;
              bboundary := {| x := 90; y := 990; width := 220; height := -900 |};
              referenceWord := RefWord wordC; confidence := 80 |})
    by (vm_compute; reflexivity).
  split; [exact H0|]. split; [exact H1|].
  exact (proj1 (anchor_blocks_by_confidence asciiUpperCase page 0 1 _ _ H0 H1
                  ltac:(lia))).
Defined.

Lemma wordCandidates_ok toUpperCase w c :
  In c (wordCandidates toUpperCase w) ->
  cword c = w
  /\ (voterIdPattern (cvoterId c) || relaxedPattern (cvoterId c))%bool = true.
Proof.
  unfold wordCandidates.
  destruct (voterIdPattern (cleanText toUpperCase (text w))) eqn:Hs.
  - intros [<-|[]]. simpl. rewrite Hs. auto.
  - destruct (relaxedPattern (cleanText toUpperCase (text w))) eqn:Hr.
    + intros [<-|[]]. simpl. rewrite Hr, Bool.orb_true_r. auto.
    + intros [].
Qed.

Lemma pairCandidates_ok toUpperCase ws c :
  In c (pairCandidates toUpperCase ws) ->
  In (cword c) ws /\ voterIdPattern (cvoterId c) = true.
Proof.
  induction ws as [|a ws IH]; simpl; [tauto|].
  destruct ws as [|b ws']; [intros []|].
  intros Hin. apply in_app_or in Hin as [Hin|Hin].
  - destruct (voterIdPattern (combinedText toUpperCase a b)) eqn:Hs;
      [|destruct Hin].
    destruct Hin as [<-|[]]. simpl. auto.
  - apply IH in Hin as [Hw Hid]. auto.
Qed.

Lemma voterIdCandidates_ok toUpperCase ws c :
  In c (voterIdCandidates toUpperCase ws) ->
  In (cword c) ws
  /\ (voterIdPattern (cvoterId c) || relaxedPattern (cvoterId c))%bool = true.
Proof.
  unfold voterIdCandidates. intros Hin. apply in_app_or in Hin as [Hin|Hin].
  - apply in_flat_map in Hin as (w & Hw & Hc).
    apply wordCandidates_ok in Hc as [-> Hid]. auto.
  - apply pairCandidates_ok in Hin as [Hw Hid]. rewrite Hid. auto.
Qed.

(** X9.  Every block of the anchor detector is anchored at a word of the
    page and has an id that contains a strict or a relaxed identifier; two
    different blocks never have the same id. *)
Theorem anchor_blocks_ids (toUpperCase : jsstring -> jsstring) (d : data)
    (i : nat) (b : block) :
  findVoterBlockBoundaries toUpperCase d !! i = Some b ->
  (exists w, In w (words d) /\ referenceWord b = RefWord w)
  /\ (voterIdPattern (Ocr.voterId b) || relaxedPattern (Ocr.voterId b))%bool
     = true
  /\ forall j b', findVoterBlockBoundaries toUpperCase d !! j = Some b' ->
                  Ocr.voterId b' = Ocr.voterId b -> j = i.
Proof.
  unfold findVoterBlockBoundaries, uniqueVoterIds. intros Hb.
  pose proof Hb as Hb0.
  apply buildBlocks_lookup in Hb as (c & Hc & _ & Hid & _ & Href).
  assert (Hcand : In c (voterIdCandidates toUpperCase (words d))).
  { apply (Permutation_in _ (sortByConfidence_Permutation _)).
    eapply uniqueBy_In. apply list_elem_of_In, list_elem_of_lookup. eauto. }
  apply voterIdCandidates_ok in Hcand as [Hw Hpat].
  split; [eauto|]. split; [rewrite Hid; exact Hpat|].
  intros j b' Hb' Hsame.
  pose proof (uniqueBy_NoDup ∅ (sortByConfidence
                                  (voterIdCandidates toUpperCase (words d))))
    as Hnd.
  rewrite <- (buildBlocks_ids 0 _ (words d) (dheight d)) in Hnd.
  apply (NoDup_lookup _ j i (Ocr.voterId b) Hnd).
  - rewrite list_lookup_fmap, Hb'. simpl. congruence.
  - rewrite list_lookup_fmap, Hb0. reflexivity.
Qed.

Lemma anchor_blocks_ids_witness :
  findVoterBlockBoundaries asciiUpperCase page !! 0%nat
  = Some {| Ocr.voterId := lit "ABC1234567"; blockIndex := 0;
            bboundary := {| x := 90; y := 90; width := 220; height := 150 |};
            referenceWord := RefWord wordA; confidence := 90 |}
  /\ (voterIdPattern (lit "ABC1234567") || relaxedPattern (lit "ABC1234567"))%bool
     = true.
Proof.
  assert (H0 : findVoterBlockBoundaries asciiUpperCase page !! 0%nat
    = Some {| Ocr.voterId := lit "ABC1234567"; blockIndex := 0;
              bboundary := {| x := 90; y := 90; width := 220; height := 150 |};
              referenceWord := RefWord wordA; confidence := 90 |})
    by (vm_compute; reflexivity).
  split; [exact H0|].
  exact (proj1 (proj2 (anchor_blocks_ids asciiUpperCase page 0 _ H0))).
Defined.

(** ** Boundary calculator: horizontal extent *)

Lemma minOf_le_elem xs a v : In v xs -> minOf xs a <= v.
Proof. induction xs as [|z xs IH]; simpl; [tauto|]. intros [->|Hin]; [lia|]. specialize (IH Hin). lia. Qed.

Lemma maxOf_ge_elem xs a v : In v xs -> v <= maxOf xs a.
Proof. induction xs as [|z xs IH]; simpl; [tauto|]. intros [->|Hin]; [lia|]. specialize (IH Hin). lia. Qed.

(** X10.  The block spans, with the 10 pixel margin on the right, the
    anchor word and every page word whose top is within 30 pixels of the
    anchor's top, provided these words do not start left of the page
    origin. *)
Theorem boundary_covers_row (cur : word) (next : option word)
    (allWords : list word) (imageHeight : Z) (w : word) :
  w = cur \/ (In w allWords /\ Z.abs (y0 (wbbox w) - y0 (wbbox cur)) < 30) ->
  0 <= x0 (wbbox w) ->
  let b := calculateBlockBoundary cur next allWords imageHeight in
  x b <= x0 (wbbox w) /\ x1 (wbbox w) + 10 <= x b + width b.
Proof.
  intros Hw Hpos b. subst b. unfold calculateBlockBoundary. cbn [x width].
  set (rowWords := List.filter _ allWords).
  pose proof (minOf_le (List.map (fun w => x0 (wbbox w)) rowWords) (x0 (wbbox cur))).
  pose proof (maxOf_ge (List.map (fun w => x1 (wbbox w)) rowWords) (x1 (wbbox cur))).
  unfold margin.
  destruct Hw as [->|[Hin Hrow]]; [lia|].
  assert (Hr : In w rowWords).
  { apply filter_In. split; [exact Hin|]. apply Z.ltb_lt. exact Hrow. }
  pose proof (minOf_le_elem _ (x0 (wbbox cur)) _
                (in_map (fun w => x0 (wbbox w)) _ _ Hr)).
  pose proof (maxOf_ge_elem _ (x1 (wbbox cur)) _
                (in_map (fun w => x1 (wbbox w)) _ _ Hr)).
  simpl in *. lia.
Qed.

Lemma boundary_covers_row_witness :
  (In wordD [wordA; wordD] /\ Z.abs (y0 (wbbox wordD) - y0 (wbbox wordA)) < 30)
  /\ 0 <= x0 (wbbox wordD)
  /\ x (calculateBlockBoundary wordA None [wordA; wordD] 3508) <= x0 (wbbox wordD)
  /\ x1 (wbbox wordD) + 10
     <= x (calculateBlockBoundary wordA None [wordA; wordD] 3508)
        + width (calculateBlockBoundary wordA None [wordA; wordD] 3508).
Proof.
  assert (Hrow : In wordD [wordA; wordD]
                 /\ Z.abs (y0 (wbbox wordD) - y0 (wbbox wordA)) < 30)
    by (split; [right; left; reflexivity|simpl; lia]).
  assert (Hpos : 0 <= x0 (wbbox wordD)) by (simpl; lia).
  split; [exact Hrow|]. split; [exact Hpos|].
  exact (boundary_covers_row wordA None [wordA; wordD] 3508 wordD
           (or_intror Hrow) Hpos).
Defined.

(** ** Translation cache: normalization *)

Lemma collapseSpaces_space b s c :
  In c (collapseSpaces b s) -> isSpace c = true -> c = 32%N.
Proof.
  revert b. induction s as [|a s IH]; intros b; simpl; [tauto|].
  destruct (isSpace a) eqn:Ha; [destruct b|]; simpl.
  - apply (IH true).
  - intros [<-|Hin]; [reflexivity|]. apply (IH true), Hin.
  - intros [<-|Hin]; [congruence|]. apply (IH false), Hin.
Qed.

Lemma collapseSpaces_length b s : (length (collapseSpaces b s) <= length s)%nat.
Proof.
  revert b. induction s as [|a s IH]; intros b; simpl; [lia|].
  pose proof (IH true). pose proof (IH false).
  destruct (isSpace a); [destruct b|]; simpl; lia.
Qed.

Lemma trimStart_length s : (length (trimStart s) <= length s)%nat.
Proof.
  induction s as [|a s IH]; simpl; [lia|]. destruct (isSpace a); simpl; lia.
Qed.

Lemma trim_length s : (length (trim s) <= length s)%nat.
Proof.
  unfold trim, trimEnd. rewrite length_rev.
  pose proof (trimStart_length (rev (trimStart s))) as H1.
  rewrite length_rev in H1. pose proof (trimStart_length s). lia.
Qed.

(** X11.  A normalized text is made of ASCII letters, digits, underscores,
    hyphens, plain spaces and Odia code units only (the space U+0020 is the
    only white space left), and it is never longer than the text. *)
Theorem normalizeText_alphabet (text : jsstring) :
  (forall c, In c (normalizeText text) ->
     isWordChar c = true \/ c = 32%N \/ isOdia c = true \/ c = 45%N)
  /\ (length (normalizeText text) <= length text)%nat.
Proof.
  unfold normalizeText. split.
  - intros c Hc. apply filter_In in Hc as [Hc Hk]. unfold kept in Hk.
    destruct (isWordChar c) eqn:Hw; [auto|].
    destruct (isSpace c) eqn:Hs.
    { right; left. apply (collapseSpaces_space _ _ _ Hc Hs). }
    destruct (isOdia c) eqn:Ho; [auto|].
    simpl in Hk. apply N.eqb_eq in Hk. auto.
  - pose proof (filter_length_le kept (collapseSpaces false (trim text))) as H1.
    pose proof (collapseSpaces_length false (trim text)).
    pose proof (trim_length text). lia.
Qed.

Lemma normalizeText_alphabet_witness :
  In 32%N (normalizeText (lit "a,  b"))
  /\ (isWordChar 32 = true \/ 32%N = 32%N \/ isOdia 32 = true \/ 32%N = 45%N)
  /\ (length (normalizeText (lit "a,  b")) <= length (lit "a,  b"))%nat.
Proof.
  assert (Hin : In 32%N (normalizeText (lit "a,  b")))
    by (right; left; reflexivity).
  split; [exact Hin|]. split.
  - exact (proj1 (normalizeText_alphabet (lit "a,  b")) _ Hin).
  - exact (proj2 (normalizeText_alphabet (lit "a,  b"))).
Defined.

(** ** Transliteration *)

Lemma join_split cur s :
  Ocr.join (lit " ") (splitOnSpace cur s) = cur ++ s.
Proof.
  revert cur. induction s as [|c s IH]; intros cur; simpl.
  - rewrite app_nil_r. reflexivity.
  - destruct (N.eqb_spec c 32) as [->|Hne].
    + pose proof (IH []) as IH0.
      destruct (splitOnSpace [] s) as [|p ps] eqn:Hs.
      * destruct s; simpl in Hs; [discriminate|].
        destruct (n =? 32)%N; discriminate.
      * simpl in IH0 |- *. rewrite IH0. reflexivity.
    + rewrite IH, <- app_assoc. reflexivity.
Qed.

Ltac char_cases :=
  unfold upperChar, lowerChar, isLower, isUpper, isOdia, inRange in *;
  repeat match goal with
         | |- context [N.leb ?a ?b] => destruct (N.leb_spec a b); cbn [andb]
         | H : context [N.leb ?a ?b] |- _ =>
             destruct (N.leb_spec a b); cbn [andb] in H
         end;
  simpl in *; try discriminate; try reflexivity; try lia.

Lemma upperChar_idem c : upperChar (upperChar c) = upperChar c.
Proof. char_cases. Qed.

Lemma upperChar_lowerChar c : upperChar (lowerChar c) = upperChar c.
Proof. char_cases. Qed.

Lemma map_upper_join sep ps :
  List.map upperChar (Ocr.join sep ps)
  = Ocr.join (List.map upperChar sep) (List.map (List.map upperChar) ps).
Proof.
  induction ps as [|p ps IH]; [reflexivity|].
  destruct ps as [|q ps]; [reflexivity|].
  change (Ocr.join sep (p :: q :: ps)) with (p ++ sep ++ Ocr.join sep (q :: ps)).
  rewrite !List.map_app, IH. reflexivity.
Qed.

(** Capitalizing changes the case of letters and nothing else. *)
Lemma capitalizeWords_case s :
  List.map upperChar (capitalizeWords s) = List.map upperChar s.
Proof.
  unfold capitalizeWords. destruct s as [|c s]; [reflexivity|].
  rewrite map_upper_join, List.map_map.
  rewrite (map_ext _ (List.map upperChar)).
  - rewrite <- map_upper_join, join_split. simpl.
    rewrite List.map_map. f_equal; [apply upperChar_lowerChar|].
    apply map_ext. apply upperChar_lowerChar.
  - intros [|a w]; [reflexivity|]. simpl. rewrite upperChar_idem. reflexivity.
Qed.

Lemma upperChar_odia c d : isOdia c = true -> upperChar d = c -> d = c.
Proof. intros Hc Hd. char_cases. Qed.

Lemma upperChar_odia_fix c : isOdia c = true -> upperChar c = c.
Proof. intros Hc. char_cases. Qed.

Lemma capitalizeWords_odia s c :
  isOdia c = true -> (In c (capitalizeWords s) <-> In c s).
Proof.
  intros Hc.
  pose proof (upperChar_odia_fix c Hc) as Hup.
  split; intros Hin.
  - apply (in_map upperChar) in Hin. rewrite capitalizeWords_case, Hup in Hin.
    apply in_map_iff in Hin as (d & Hd & Hin).
    rewrite (upperChar_odia c d Hc Hd) in Hin. exact Hin.
  - apply (in_map upperChar) in Hin. rewrite <- capitalizeWords_case, Hup in Hin.
    apply in_map_iff in Hin as (d & Hd & Hin).
    rewrite (upperChar_odia c d Hc Hd) in Hin. exact Hin.
Qed.

Lemma romanMap_latin :
  forallb (fun e => forallb (fun c => negb (isOdia c)) (snd e)) romanMap = true.
Proof. reflexivity. Qed.

Lemma romanChar_cases t :
  romanChar t = [t]
  \/ forallb (fun c => negb (isOdia c)) (romanChar t) = true.
Proof.
  unfold romanChar.
  destruct (find (fun e => (fst e =? t)%N) romanMap) as [[k r]|] eqn:Hf; [|auto].
  destruct r as [|a r]; [auto|]. right.
  apply find_some in Hf as [Hin _].
  pose proof romanMap_latin as Hall. rewrite forallb_forall in Hall.
  exact (Hall _ Hin).
Qed.

(** X15.  An Odia code unit occurs in the transliteration of a normalized
    text exactly when it occurs in the normalized text and the table gives
    no non-empty replacement for it.  The virama U+0B4D is such a code
    unit: its table entry is the empty string, which the lookup ignores. *)
Theorem romanizeOdia_survivors (x : jsstring) (c : N) :
  isOdia c = true ->
  (In c (romanizeOdia (normalizeText x))
   <-> In c (normalizeText x) /\ romanChar c = [c])
  /\ romanChar 0xb4d = [0xb4d%N].
Proof.
  intros Hc. split; [|reflexivity]. unfold romanizeOdia.
  rewrite (capitalizeWords_odia _ _ Hc), in_flat_map. split.
  - intros (t & Ht & Hin).
    destruct (romanChar_cases t) as [Heq|Hlatin].
    + rewrite Heq in Hin. destruct Hin as [->|[]]. auto.
    + rewrite forallb_forall in Hlatin. apply Hlatin in Hin.
      rewrite Hc in Hin. discriminate.
  - intros [Hin Heq]. exists c. split; [exact Hin|]. rewrite Heq. left. reflexivity.
Qed.

Lemma romanizeOdia_survivors_witness :
  isOdia 0xb4d = true
  /\ In 0xb4d%N (normalizeText [0xb38; 0xb4d; 0xb2c; 0xb3e; 0xb2e; 0xb40]%N)
  /\ In 0xb4d%N (romanizeOdia (normalizeText [0xb38; 0xb4d; 0xb2c; 0xb3e; 0xb2e; 0xb40]%N)).
Proof.
  assert (Hc : isOdia 0xb4d = true) by reflexivity.
  assert (Hin : In 0xb4d%N (normalizeText [0xb38; 0xb4d; 0xb2c; 0xb3e; 0xb2e; 0xb40]%N))
    by (right; left; reflexivity).
  split; [exact Hc|]. split; [exact Hin|].
  apply (proj1 (romanizeOdia_survivors _ _ Hc)). split; [exact Hin|reflexivity].
Defined.

(** ** Field extraction: keys and values *)

Lemma trimStart_snoc u c :
  isSpace c = false -> trimStart (u ++ [c]) = trimStart u ++ [c].
Proof.
  intros Hc. induction u as [|a u IH]; simpl; [rewrite Hc; reflexivity|].
  destruct (isSpace a); [exact IH|reflexivity].
Qed.

Lemma trimStart_head s c : head (trimStart s) = Some c -> isSpace c = false.
Proof.
  induction s as [|a s IH]; simpl; [discriminate|].
  destruct (isSpace a) eqn:Ha; [exact IH|]. simpl. intros [= <-]. exact Ha.
Qed.

Lemma last_rev_head {A} (l : list A) : last (rev l) = head l.
Proof. destruct l as [|a l]; [reflexivity|]. simpl. apply last_snoc. Qed.

Lemma trim_ends s c :
  head (trim s) = Some c \/ last (trim s) = Some c -> isSpace c = false.
Proof.
  unfold trim, trimEnd. intros [Hh|Hl].
  - destruct (trimStart s) as [|a t] eqn:Ht; [discriminate|].
    assert (Ha : isSpace a = false) by (apply (trimStart_head s); rewrite Ht; reflexivity).
    simpl in Hh. rewrite (trimStart_snoc _ _ Ha), rev_app_distr in Hh.
    simpl in Hh. injection Hh as <-. exact Ha.
  - rewrite last_rev_head in Hl. apply (trimStart_head _ _ Hl).
Qed.

Lemma firstPart_no_newline s : ~ In 10%N (firstPart s).
Proof.
  induction s as [|c s IH]; [simpl; tauto|].
  change (firstPart (c :: s))
    with (if ((c =? 10)%N
              || ((length (take 3 (c :: s)) =? 3)%nat
                  && forallb isSpace (take 3 (c :: s))))%bool
          then [] else c :: firstPart s).
  destruct (N.eqb_spec c 10) as [->|Hne]; [simpl; tauto|].
  destruct ((length (take 3 (c :: s)) =? 3)%nat
            && forallb isSpace (take 3 (c :: s)))%bool; [simpl; tauto|].
  intros [Heq|Hin]; [congruence|exact (IH Hin)].
Qed.

Lemma extractField_lookup text result key k v :
  extractField text result key !! k = Some v ->
  result !! k = Some v
  \/ (k = hd [] key
      /\ exists group1, v = trim (firstPart (trim group1))).
Proof.
  unfold extractField.
  destruct (firstMatch (fieldAt key) text) as [g|]; [|auto].
  destruct (decide (hd [] key = k)) as [<-|Hne].
  - rewrite lookup_insert_eq. intros [= <-]. right. eauto.
  - rewrite lookup_insert_ne by exact Hne. auto.
Qed.

Lemma extractKeyValues_lookup text k v :
  extractKeyValues text !! k = Some v ->
  In k fieldNames /\ exists group1, v = trim (firstPart (trim group1)).
Proof.
  unfold extractKeyValues, fieldNames.
  assert (Hgen : forall ks m,
            fold_left (extractField text) ks m !! k = Some v ->
            m !! k = Some v
            \/ (In k (List.map (hd []) ks)
                /\ exists group1, v = trim (firstPart (trim group1)))).
  { induction ks as [|key ks IH]; intros m; simpl; [auto|].
    intros Hk. apply IH in Hk as [Hk|[Hin Hv]]; [|auto].
    apply extractField_lookup in Hk as [Hk|[-> Hv]]; auto. }
  intros Hk. apply Hgen in Hk as [Hk|Hk]; [|exact Hk].
  rewrite lookup_empty in Hk. discriminate.
Qed.

(** X16.  [extractKeyValues] stores values under the five field names
    only; a stored value has no white space at either end and holds no
    line feed. *)
Theorem extractKeyValues_values (text k v : jsstring) :
  extractKeyValues text !! k = Some v ->
  In k [lit "name"; lit "age"; lit "gender"; lit "houseNo"; lit "guardianName"]
  /\ (forall c, head v = Some c \/ last v = Some c -> isSpace c = false)
  /\ ~ In 10%N v.
Proof.
  intros Hk. apply extractKeyValues_lookup in Hk as [Hin (g & ->)].
  split; [exact Hin|]. split; [apply trim_ends|].
  intros H10. apply trim_In in H10. exact (firstPart_no_newline _ H10).
Qed.

Lemma extractKeyValues_values_witness :
  extractKeyValues rollLine !! lit "age" = Some (lit "37")
  /\ In (lit "age")
       [lit "name"; lit "age"; lit "gender"; lit "houseNo"; lit "guardianName"]
  /\ ~ In 10%N (lit "37").
Proof.
  assert (Hk : extractKeyValues rollLine !! lit "age" = Some (lit "37"))
    by (vm_compute; reflexivity).
  split; [exact Hk|].
  pose proof (extractKeyValues_values _ _ _ Hk) as (Hin & _ & Hnl).
  split; assumption.
Defined.

(** ** Per-block extraction *)

Lemma fieldNames_NoDup : NoDup fieldNames.
Proof. apply (bool_decide_unpack _). vm_compute. exact I. Qed.

Lemma mergeOver_lookup (data : gmap jsstring jsstring) (ks : list jsstring) :
  NoDup ks ->
  forall (result : gmap jsstring jsstring) (k : jsstring),
  fold_left (fun result key =>
               match data !! key with
               | Some v =>
                   if (truthy (Some v) && negb (truthy (result !! key)))%bool
                   then <[ key := v ]> result
                   else result
               | None => result
               end) ks result !! k
  = if truthy (result !! k) then result !! k
    else if (bool_decide (k ∈ ks) && truthy (data !! k))%bool then data !! k
    else result !! k.
Proof.
  induction 1 as [|key ks Hnot Hnd IH]; intros result k; cbn [fold_left].
  - destruct (truthy (result !! k)); reflexivity.
  - rewrite IH.
    set (r1 := match data !! key with
               | Some v =>
                   if (truthy (Some v) && negb (truthy (result !! key)))%bool
                   then <[ key := v ]> result
                   else result
               | None => result
               end).
    destruct (decide (k = key)) as [->|Hne].
    + rewrite (bool_decide_eq_false_2 (key ∈ ks)) by exact Hnot.
      rewrite (bool_decide_eq_true_2 (key ∈ key :: ks)) by (left).
      cbn [andb].
      assert (Hr1 : r1 !! key
                    = if truthy (result !! key) then result !! key
                      else if truthy (data !! key) then data !! key
                      else result !! key).
      { subst r1. destruct (data !! key) as [v|] eqn:Hd.
        - destruct (truthy (Some v)) eqn:Hv; cbn [andb].
          + destruct (truthy (result !! key)) eqn:Hr; cbn [negb].
            * reflexivity.
            * apply lookup_insert_eq.
          + destruct (truthy (result !! key)); reflexivity.
        - destruct (truthy (result !! key)); reflexivity. }
      rewrite Hr1.
      destruct (truthy (result !! key)) eqn:Hr; [rewrite Hr; reflexivity|].
      destruct (truthy (data !! key)) eqn:Hd; [rewrite Hd; reflexivity|].
      rewrite Hr. reflexivity.
    + assert (Hk : r1 !! k = result !! k).
      { subst r1. destruct (data !! key) as [v|]; [|reflexivity].
        destruct (truthy (Some v) && negb (truthy (result !! key)))%bool;
          [|reflexivity].
        apply lookup_insert_ne. congruence. }
      rewrite Hk.
      assert (Hmem : bool_decide (k ∈ key :: ks) = bool_decide (k ∈ ks)).
      { apply bool_decide_ext. rewrite elem_of_cons. tauto. }
      rewrite Hmem. reflexivity.
Qed.

Lemma mergeFields_lookup text result k :
  mergeFields result (extractKeyValues text) !! k
  = if truthy (result !! k) then result !! k
    else if truthy (extractKeyValues text !! k) then extractKeyValues text !! k
    else result !! k.
Proof.
  unfold mergeFields. rewrite (mergeOver_lookup _ _ fieldNames_NoDup).
  destruct (truthy (result !! k)); [reflexivity|].
  destruct (extractKeyValues text !! k) as [v|] eqn:Hd;
    [|rewrite Bool.andb_false_r; reflexivity].
  apply extractKeyValues_lookup in Hd as [Hin _].
  rewrite (bool_decide_eq_true_2 (k ∈ fieldNames))
    by (apply list_elem_of_In; exact Hin).
  reflexivity.
Qed.

Lemma fold_mergeFields_lookup ls result k :
  fold_left (fun result line => mergeFields result (extractKeyValues (trim line)))
    ls result !! k
  = if truthy (result !! k) then result !! k
    else match firstField k ls with
         | Some v => Some v
         | None => result !! k
         end.
Proof.
  revert result. induction ls as [|l ls IH]; intros result; simpl.
  - destruct (truthy (result !! k)); reflexivity.
  - rewrite IH, mergeFields_lookup.
    destruct (truthy (result !! k)) eqn:Hr; [rewrite Hr; reflexivity|].
    destruct (truthy (extractKeyValues (trim l) !! k)) eqn:Hd.
    + rewrite Hd. destruct (extractKeyValues (trim l) !! k); [reflexivity|].
      discriminate.
    + rewrite Hr. reflexivity.
Qed.

Lemma splitOn_no_sep sep cur s l :
  ~ In sep cur -> In l (splitOn sep cur s) -> ~ In sep l.
Proof.
  revert cur. induction s as [|c s IH]; intros cur Hcur; simpl.
  - intros [<-|[]]. exact Hcur.
  - destruct (N.eqb_spec c sep) as [->|Hne].
    + intros [<-|Hin]; [exact Hcur|]. apply (IH [] (fun H => H) Hin).
    + apply IH. intros Hin. apply in_app_or in Hin as [Hin|[Heq|[]]]; auto.
Qed.

(** X17.  In the result of [extractVoterData] every field holds the first
    non-empty value that the non-blank lines of the block text give for
    it, later lines never replacing an earlier value; the lines kept are
    not blank and hold no line feed; and an id that is not a [BLOCK_]
    placeholder is passed on unchanged. *)
Theorem extractVoterData_first_value (text initialVoterId : jsstring) :
  let r := extractVoterData text initialVoterId in
  (forall k, vdData r !! k = firstField k (allLines r))
  /\ (forall l, In l (allLines r) -> trim l <> [] /\ ~ In 10%N l)
  /\ (startsWith (lit "BLOCK_") initialVoterId = false ->
      vdVoterId r = initialVoterId).
Proof.
  intros r. subst r. unfold extractVoterData. cbn [vdData allLines vdVoterId].
  split; [|split].
  - intros k. rewrite fold_mergeFields_lookup, lookup_empty. simpl.
    destruct (firstField k _); reflexivity.
  - intros l Hl. apply filter_In in Hl as [Hl Hnb]. split.
    + apply Bool.negb_true_iff, bool_decide_eq_false in Hnb. exact Hnb.
    + apply (splitOn_no_sep 10 [] text l); [tauto|exact Hl].
  - intros ->. reflexivity.
Qed.

Lemma extractVoterData_first_value_witness :
  startsWith (lit "BLOCK_") (lit "YVY1435841") = false
  /\ vdVoterId (extractVoterData twoAgeLines (lit "YVY1435841")) = lit "YVY1435841"
  /\ vdData (extractVoterData twoAgeLines (lit "YVY1435841")) !! lit "age" = Some (lit "30").
Proof.
  assert (Hid : startsWith (lit "BLOCK_") (lit "YVY1435841") = false)
    by reflexivity.
  split; [exact Hid|].
  pose proof (extractVoterData_first_value twoAgeLines (lit "YVY1435841")) as (Hfirst & _ & Hkeep).
  split; [exact (Hkeep Hid)|].
  rewrite Hfirst. vm_compute. reflexivity.
Defined.

(** ** The orchestrator *)

Lemma detectBlocksByVisualStructure_nonempty ls :
  ls <> [] -> detectBlocksByVisualStructure ls <> [].
Proof.
  intros Hne. rewrite detectBlocksByVisualStructure_groups.
  pose proof (groupLines_nonempty ls Hne) as Hg.
  destruct (groupLines ls); [contradiction|discriminate].
Qed.

Lemma detectBlocksByGrid_empty W H :
  0 < W -> detectBlocksByGrid W H = [] -> H - 2 * (W / 50) < 200.
Proof.
  intros HW Hnil. rewrite detectBlocksByGrid_layout in Hnil by exact HW.
  apply fmap_nil_inv in Hnil.
  assert (Hlen : length (seqZ 0 (cols * Z.max 0 (gridRows W H))) = 0%nat)
    by (rewrite Hnil; reflexivity).
  rewrite length_seqZ in Hlen. unfold cols, gridRows, rowHeight in Hlen.
  rewrite gridMargin_eq in Hlen.
  destruct (Z.lt_ge_cases (H - 2 * (W / 50)) 200) as [Hlt|Hge]; [exact Hlt|].
  assert (1 <= (H - W / 50 * 2) / 200) by (apply Z.div_le_lower_bound; lia).
  lia.
Qed.

(** X18.  The three strategies leave a page without blocks only when the
    page is too short for one row of the grid: if [detectVoterBlocks]
    returns an empty list, the image metadata was read and, for a positive
    width, the height less twice the margin is under 200. *)
Theorem detectVoterBlocks_empty (toUpperCase : jsstring -> jsstring)
    (recognize : jsstring -> option data)
    (metadata : jsstring -> option (Z * Z)) (imagePath : jsstring) :
  detectVoterBlocks toUpperCase recognize metadata imagePath = Some [] ->
  exists W H, metadata imagePath = Some (W, H)
              /\ (0 < W -> H - 2 * (W / 50) < 200).
Proof.
  unfold detectVoterBlocks. intros Hcall.
  destruct (recognize imagePath) as [d0|]; [|discriminate]. simpl in Hcall.
  match type of Hcall with
  | (?retry ≫= _) = _ => destruct retry as [d|]; [|discriminate]
  end.
  simpl in Hcall.
  destruct (bool_decide (findVoterBlockBoundaries toUpperCase d = [])) eqn:Ha.
  - destruct (bool_decide (lines d = [])) eqn:Hl; simpl in Hcall.
    + rewrite Ha in Hcall.
      destruct (metadata imagePath) as [[W H]|]; [|discriminate].
      simpl in Hcall. injection Hcall as Hgrid. exists W, H.
      split; [reflexivity|]. intros HW.
      apply (detectBlocksByGrid_empty W H HW Hgrid).
    + apply bool_decide_eq_false in Hl.
      pose proof (detectBlocksByVisualStructure_nonempty _ Hl) as Hs.
      rewrite (bool_decide_eq_false_2 _ Hs) in Hcall.
      injection Hcall as Hnil. contradiction.
  - simpl in Hcall. rewrite Ha in Hcall. injection Hcall as Hnil.
    apply bool_decide_eq_false in Ha. contradiction.
Qed.

Lemma detectVoterBlocks_empty_witness :
  detectVoterBlocks asciiUpperCase
    (fun _ => Some {| words := []; lines := []; dheight := 100 |})
    (fun _ => Some (100, 100)) (lit "page_processed.png") = Some []
  /\ 100 - 2 * (100 / 50) < 200.
Proof.
  assert (Hcall : detectVoterBlocks asciiUpperCase
            (fun _ => Some {| words := []; lines := []; dheight := 100 |})
            (fun _ => Some (100, 100)) (lit "page_processed.png") = Some [])
    by reflexivity.
  split; [exact Hcall|].
  destruct (detectVoterBlocks_empty _ _ _ _ Hcall) as (W & H & Hm & Hshort).
  injection Hm as <- <-. apply Hshort. lia.
Defined.

(** ** House number *)

Lemma countPrefix_all p s : forallb p (take (countPrefix p s) s) = true.
Proof.
  induction s as [|c s IH]; simpl; [reflexivity|].
  destruct (p c) eqn:Hp; simpl; [rewrite Hp; exact IH|reflexivity].
Qed.

Lemma firstMatch_Some at_ s r :
  firstMatch at_ s = Some r -> exists pre t, s = pre ++ t /\ at_ t = Some r.
Proof.
  induction s as [|c s IH]; simpl.
  - destruct (at_ []) eqn:Hat; [|discriminate]. intros [= <-].
    exists [], []. auto.
  - destruct (at_ (c :: s)) eqn:Hat.
    + intros [= <-]. exists [], (c :: s). auto.
    + intros Hr. apply IH in Hr as (pre & t & -> & Ht).
      exists (c :: pre), t. auto.
Qed.

Lemma numberAfterLabel_digits s d :
  VoterParser.numberAfterLabel s = Some d -> forallb isDigit d = true.
Proof.
  unfold VoterParser.numberAfterLabel.
  destruct (1 <=? _)%nat; [|discriminate]. intros [= <-]. apply countPrefix_all.
Qed.

Lemma labelledNumberAt_digits s d :
  VoterParser.labelledNumberAt s = Some d -> forallb isDigit d = true.
Proof.
  unfold VoterParser.labelledNumberAt. intros Hd.
  apply head_Some_elem_of, list_elem_of_omap in Hd as (after & _ & Hd).
  destruct after as [r|]; [|discriminate].
  exact (numberAfterLabel_digits _ _ Hd).
Qed.

Lemma bareNumberFrom_step prev c s :
  VoterParser.bareNumberFrom prev (c :: s)
  = if ((1 <=? countPrefix isDigit (c :: s))%nat
        && (countPrefix isDigit (c :: s) <=? 4)%nat && notWord prev
        && notWord (head (drop (countPrefix isDigit (c :: s)) (c :: s))))%bool
    then Some (take (countPrefix isDigit (c :: s)) (c :: s))
    else VoterParser.bareNumberFrom (Some c) s.
Proof. reflexivity. Qed.

Lemma bareNumberFrom_digits s :
  forall prev d,
  VoterParser.bareNumberFrom prev s = Some d ->
  forallb isDigit d = true /\ (length d <= 4)%nat.
Proof.
  induction s as [|c s IH]; intros prev d; [discriminate|].
  rewrite bareNumberFrom_step.
  destruct (_ && _)%bool eqn:Hcond; [|apply IH].
  intros Heq.
  assert (d = take (countPrefix isDigit (c :: s)) (c :: s)) as -> by congruence.
  clear Heq. split; [apply countPrefix_all|].
  rewrite length_take.
  apply Bool.andb_true_iff in Hcond as [Hcond _].
  apply Bool.andb_true_iff in Hcond as [Hcond _].
  apply Bool.andb_true_iff in Hcond as [_ Hrun].
  apply Nat.leb_le in Hrun. lia.
Qed.

(** X19.  The house number is the empty string or a string of decimal
    digits whose value lies between 1 and 9999. *)
Theorem extractHouseNumber_range (text : jsstring) :
  VoterParser.extractHouseNumber text = []
  \/ (forallb isDigit (VoterParser.extractHouseNumber text) = true
      /\ 0 < parseInt (VoterParser.extractHouseNumber text) < 10000).
Proof.
  unfold VoterParser.extractHouseNumber.
  assert (Hbare : match VoterParser.bareNumberFrom None text with
                  | Some d => if VoterParser.houseNumberOk d then d else []
                  | None => []
                  end = []
                  \/ (forallb isDigit
                        match VoterParser.bareNumberFrom None text with
                        | Some d => if VoterParser.houseNumberOk d then d else []
                        | None => []
                        end = true
                      /\ 0 < parseInt
                             match VoterParser.bareNumberFrom None text with
                             | Some d => if VoterParser.houseNumberOk d then d else []
                             | None => []
                             end < 10000)).
  { destruct (VoterParser.bareNumberFrom None text) as [d|] eqn:Hd; [|auto].
    destruct (VoterParser.houseNumberOk d) eqn:Hok; [|auto]. right.
    split; [apply (bareNumberFrom_digits _ _ _ Hd)|].
    unfold VoterParser.houseNumberOk in Hok. lia. }
  destruct (firstMatch VoterParser.labelledNumberAt text) as [d|] eqn:Hd;
    [|exact Hbare].
  destruct (VoterParser.houseNumberOk d) eqn:Hok; [|exact Hbare]. right.
  apply firstMatch_Some in Hd as (pre & t & _ & Hd).
  split; [apply (labelledNumberAt_digits _ _ Hd)|].
  unfold VoterParser.houseNumberOk in Hok. lia.
Qed.

(** ** Records of a page *)

Section VoterFacts.

Variable toLowerCase : jsstring -> jsstring.
Variable toUpperCase : jsstring -> jsstring.
Variable translate : list jsstring -> jsstring -> response.

(** A name comes back only when nothing is sent to the translator, and
    it is then the empty name. *)
Lemma extractNameFromWords_cases words t w :
  VoterParser.extractNameFromWords toLowerCase toUpperCase translate words t w
  = (if (length (trim (VoterParser.longestOdiaRun words)) <? 3)%nat
     then Resolved VoterParser.emptyName
     else Rejected TypeError,
     t, w).
Proof.
  unfold VoterParser.extractNameFromWords.
  destruct words as [|word words]; [reflexivity|].
  set (odiaName := trim (VoterParser.longestOdiaRun (word :: words))).
  destruct (Nat.ltb_spec (length odiaName) 3) as [Hlt|Hge].
  - rewrite Bool.orb_true_r. reflexivity.
  - rewrite Bool.orb_false_r.
    destruct (bool_decide_reflect (odiaName = [])) as [Hnil|_].
    + rewrite Hnil in Hge. simpl in Hge. lia.
    + rewrite translateToEnglish_rejects. reflexivity.
Qed.

Lemma extractRelationFromWords_state words t w :
  exists r,
    VoterParser.extractRelationFromWords toLowerCase toUpperCase translate
      words t w = (r, t, w).
Proof.
  unfold VoterParser.extractRelationFromWords.
  match goal with
  | |- context [match ?n with [] => (Resolved [], t, w) | _ => _ end] =>
      destruct n
  end.
  - eexists. reflexivity.
  - rewrite translateToEnglish_rejects. eexists. reflexivity.
Qed.

(** A block is parsed into a record only when its name is empty. *)
Lemma parseVoterBlock_cases block serialNo t w :
  exists r,
    VoterParser.parseVoterBlock toLowerCase toUpperCase translate block
      serialNo t w = (r, t, w)
    /\ forall v, r = Resolved v -> odia (vname v) = [].
Proof.
  unfold VoterParser.parseVoterBlock. rewrite extractNameFromWords_cases.
  destruct (length _ <? 3)%nat.
  - destruct (extractRelationFromWords_state
                (VoterParser.filterLabelWords (VoterParser.bwords block)) t w)
      as (r & ->).
    destruct r as [relationData|e]; eexists; (split; [reflexivity|]).
    + intros v [= <-]. reflexivity.
    + intros v Hv. discriminate.
  - eexists. split; [reflexivity|]. intros v Hv. discriminate.
Qed.

Lemma isValidVoter_empty_name v : odia (vname v) = [] -> isValidVoter v = false.
Proof.
  intros Hname. unfold isValidVoter. rewrite Hname.
  change (2 <? Z.of_nat (length (@nil N))) with false.
  rewrite Bool.andb_false_r. reflexivity.
Qed.

(** X20.  [extractVotersFromBlocks] never returns a record, whatever the
    blocks: a block is parsed into a record only when no name of it goes
    to the translator, the record then has the empty name and
    [isValidVoter] refuses it; on every other block [parseVoterBlock] is
    rejected by the translator and the [catch] clause skips the block.
    Nothing is sent to the translation service and the translator is left
    as it was. *)
Theorem extractVotersFromBlocks_yields_nothing
    (voterBlocks : list VoterParser.pblock) (startingSerialNo : Z)
    (t : translator) (w : world) :
  VoterParser.extractVotersFromBlocks toLowerCase toUpperCase translate
    voterBlocks startingSerialNo t w
  = ([], t, w).
Proof.
  unfold VoterParser.extractVotersFromBlocks. generalize 0 as i. revert t w.
  induction voterBlocks as [|block rest IH]; intros t w i; [reflexivity|].
  cbn [VoterParser.votersFrom].
  destruct (parseVoterBlock_cases block (startingSerialNo + i) t w)
    as (r & -> & Hname).
  rewrite IH. destruct r as [v|e]; [|reflexivity].
  rewrite (isValidVoter_empty_name v (Hname v eq_refl)). reflexivity.
Qed.

End VoterFacts.

(** ** Names of block records *)

Lemma startsWith_spec p s :
  startsWith p s = true <-> exists post, s = p ++ post.
Proof.
  revert s. induction p as [|a p IH]; intros s; simpl.
  - split; [eauto|reflexivity].
  - destruct s as [|b s]; [split; [discriminate|intros (post & [=])]|].
    rewrite Bool.andb_true_iff, N.eqb_eq, IH. split.
    + intros [-> (post & ->)]. eauto.
    + intros (post & [= -> ->]). eauto.
Qed.

Lemma includes_spec s p : includes s p = true <-> occursIn p s.
Proof.
  unfold occursIn. induction s as [|c s IH].
  - simpl. rewrite Bool.orb_false_r, startsWith_spec. split.
    + intros (post & ->). exists [], post. reflexivity.
    + intros (pre & post & Heq). destruct pre; [|discriminate]. eauto.
  - cbn [includes]. rewrite Bool.orb_true_iff, startsWith_spec, IH. split.
    + intros [(post & ->)|(pre & post & ->)].
      * exists [], post. reflexivity.
      * exists (c :: pre), post. reflexivity.
    + intros (pre & post & Heq). destruct pre as [|a pre].
      * left. eauto.
      * right. simpl in Heq. injection Heq as _ ->. eauto.
Qed.

(** A text without the separator that occurs around a separator occurs on
    one side of it. *)
Lemma occursIn_separator p a b (sep : N) :
  p <> [] -> ~ In sep p -> occursIn p (a ++ sep :: b) ->
  occursIn p a \/ occursIn p b.
Proof.
  intros Hne Hsep (pre & post & Heq).
  apply app_eq_inv in Heq as [(k & -> & Hk)|(k & -> & Hk)].
  - (* [p] starts before the separator *)
    left. apply app_eq_inv in Hk as [(k2 & -> & Hb)|(k2 & -> & _)].
    + destruct k2 as [|c k2].
      * exists pre, []. rewrite !app_nil_r. reflexivity.
      * exfalso. apply Hsep. injection Hb as <- _.
        apply in_or_app. right. left. reflexivity.
    + exists pre, k2. reflexivity.
  - (* [p] starts after the separator *)
    right. destruct k as [|c k]; simpl in Hk.
    + destruct p as [|c p]; [contradiction|]. exfalso. apply Hsep.
      injection Hk as <- _. left. reflexivity.
    + injection Hk as _ ->. exists k, post. reflexivity.
Qed.

Lemma occursIn_spacedRun p ws :
  p <> [] -> ~ In 32%N p -> occursIn p (spacedRun ws) ->
  exists w, In w ws /\ occursIn p (text w).
Proof.
  intros Hne Hsp. induction ws as [|w ws IH]; intros Hocc.
  - destruct Hocc as (pre & post & Heq). simpl in Heq.
    destruct pre; [destruct p; [contradiction|discriminate]|discriminate].
  - change (spacedRun (w :: ws)) with ([] ++ 32%N :: (text w ++ spacedRun ws))
      in Hocc.
    apply (occursIn_separator p [] _ 32%N Hne Hsp) in Hocc as [Hocc|Hocc].
    { destruct Hocc as (pre & post & Heq).
      destruct pre; [destruct p; [contradiction|discriminate]|discriminate]. }
    destruct ws as [|w' ws'].
    + exists w. split; [left; reflexivity|].
      simpl in Hocc. rewrite app_nil_r in Hocc. exact Hocc.
    + change (spacedRun (w' :: ws'))
        with (32%N :: (text w' ++ spacedRun ws')) in Hocc.
      apply (occursIn_separator p _ _ 32%N Hne Hsp) in Hocc as [Hocc|Hocc].
      * exists w. split; [left; reflexivity|exact Hocc].
      * destruct IH as (w0 & Hin & Hw0).
        { destruct Hocc as (pre & post & Heq).
          exists (32%N :: pre), post.
          change (spacedRun (w' :: ws'))
            with (32%N :: (text w' ++ spacedRun ws')).
          rewrite Heq. reflexivity. }
        exists w0. split; [right; exact Hin|exact Hw0].
Qed.

Lemma trimStart_suffix s : exists a, s = a ++ trimStart s.
Proof.
  induction s as [|c s (a & IH)]; [exists []; reflexivity|]. simpl.
  destruct (isSpace c); [|exists []; reflexivity].
  exists (c :: a). simpl. f_equal. exact IH.
Qed.

Lemma trim_infix s : exists a b, s = a ++ trim s ++ b.
Proof.
  unfold trim, trimEnd.
  destruct (trimStart_suffix s) as (a & Ha).
  destruct (trimStart_suffix (rev (trimStart s))) as (b & Hb).
  exists a, (rev b). rewrite <- rev_app_distr, <- Hb, rev_involutive. exact Ha.
Qed.

Lemma occursIn_trim_inv p s : occursIn p (trim s) -> occursIn p s.
Proof.
  intros (pre & post & Heq). destruct (trim_infix s) as (a & b & Hs).
  exists (a ++ pre), (post ++ b). rewrite Hs, Heq, <- !app_assoc. reflexivity.
Qed.

Lemma trimStart_nonspace pre c rest :
  isSpace c = false -> trimStart (pre ++ c :: rest) = trimStart pre ++ c :: rest.
Proof.
  intros Hc. induction pre as [|a pre IH]; simpl; [rewrite Hc; reflexivity|].
  destruct (isSpace a); [exact IH|reflexivity].
Qed.

Lemma trimEnd_nonspace pre d post :
  isSpace d = false -> trimEnd (pre ++ d :: post) = pre ++ d :: trimEnd post.
Proof.
  intros Hd. unfold trimEnd.
  replace (rev (pre ++ d :: post)) with (rev post ++ d :: rev pre).
  - rewrite (trimStart_nonspace _ _ _ Hd), rev_app_distr. simpl.
    rewrite rev_involutive, <- app_assoc. reflexivity.
  - rewrite rev_app_distr. simpl. rewrite <- app_assoc. reflexivity.
Qed.

(** An occurrence that neither starts nor ends on white space survives
    trimming. *)
Lemma occursIn_trim p s :
  p <> [] -> (forall c, In c p -> isSpace c = false) ->
  occursIn p s -> occursIn p (trim s).
Proof.
  intros Hne Hns (pre & post & ->).
  destruct (exists_last Hne) as (q & d & Hq).
  assert (Hd : isSpace d = false).
  { apply Hns. rewrite Hq. apply in_or_app. right. left. reflexivity. }
  destruct p as [|c p']; [contradiction|].
  assert (Hc : isSpace c = false) by (apply Hns; left; reflexivity).
  unfold trim.
  change (pre ++ (c :: p') ++ post) with (pre ++ c :: (p' ++ post)).
  rewrite (trimStart_nonspace _ _ _ Hc).
  change (trimStart pre ++ c :: p' ++ post)
    with (trimStart pre ++ (c :: p') ++ post).
  rewrite Hq.
  replace (trimStart pre ++ (q ++ [d]) ++ post)
    with ((trimStart pre ++ q) ++ d :: post)
    by (rewrite <- !app_assoc; reflexivity).
  rewrite (trimEnd_nonspace _ _ _ Hd).
  exists (trimStart pre), (trimEnd post).
  rewrite <- !app_assoc. reflexivity.
Qed.

Lemma labelWords_solid :
  forall label, In label labelWords ->
    label <> [] /\ forall c, In c label -> isSpace c = false.
Proof.
  assert (H : forallb (fun l => negb (bool_decide (l = []))
                                && forallb (fun c => negb (isSpace c)) l)%bool
                labelWords = true) by reflexivity.
  rewrite forallb_forall in H. intros label Hin.
  apply H in Hin. apply Bool.andb_true_iff in Hin as [Hne Hall].
  split.
  - apply Bool.negb_true_iff, bool_decide_eq_false in Hne. exact Hne.
  - rewrite forallb_forall in Hall. intros c Hc.
    apply Bool.negb_true_iff, (Hall c Hc).
Qed.

Lemma filterLabelWords_In ws w :
  In w (VoterParser.filterLabelWords ws) ->
  In w ws
  /\ forall label, In label labelWords -> includes (trim (text w)) label = false.
Proof.
  unfold VoterParser.filterLabelWords. intros Hin.
  apply filter_In in Hin as [Hin Hkeep]. split; [exact Hin|].
  destruct (existsb _ labelWords) eqn:Hex; [discriminate|].
  rewrite existsb_false_iff in Hex. exact Hex.
Qed.

Lemma nameStep_runs (P : word -> Prop) (words : list word) :
  (forall w, In w words -> P w) ->
  forall st,
  (exists ws, fst st = spacedRun ws /\ Forall P ws) ->
  (exists ws, snd st = spacedRun ws /\ Forall P ws) ->
  (exists ws, fst (fold_left VoterParser.nameStep words st) = spacedRun ws
              /\ Forall P ws)
  /\ (exists ws, snd (fold_left VoterParser.nameStep words st) = spacedRun ws
                 /\ Forall P ws).
Proof.
  induction words as [|w words IH]; intros HP [longest current] Hl Hc;
    [split; assumption|].
  cbn [fold_left]. apply IH; [intros w' Hw'; apply HP; right; exact Hw'| |];
    unfold VoterParser.nameStep; simpl in Hl, Hc;
    destruct (VoterParser.isOdiaText (text w)); cbn [fst snd].
  - exact Hl.
  - destruct (length longest <? length current)%nat; assumption.
  - destruct Hc as (ws & -> & Hws). exists (ws ++ [w]). split.
    + unfold spacedRun. rewrite flat_map_app. simpl. rewrite app_nil_r.
      reflexivity.
    + apply Forall_app. split; [exact Hws|]. constructor; [|constructor].
      apply HP. left. reflexivity.
  - exists []. split; [reflexivity|constructor].
Qed.

Lemma longestOdiaRun_run (P : word -> Prop) (words : list word) :
  (forall w, In w words -> P w) ->
  exists ws, VoterParser.longestOdiaRun words = spacedRun ws /\ Forall P ws.
Proof.
  intros HP. unfold VoterParser.longestOdiaRun.
  destruct (nameStep_runs P words HP ([], []))
    as [Hl Hc]; try (exists []; split; [reflexivity|constructor]).
  destruct (fold_left VoterParser.nameStep words ([], [])) as [longest current].
  simpl in Hl, Hc. destruct (length longest <? length current)%nat; assumption.
Qed.

Section NameFacts.

Variable toLowerCase : jsstring -> jsstring.
Variable toUpperCase : jsstring -> jsstring.
Variable translate : list jsstring -> jsstring -> response.

(** X21.  The Odia name that [extractNameFromWords] builds from the words
    left by [filterLabelWords], the trimmed longest run of Odia words,
    contains no label word.  When it is shorter than three code units the
    call resolves with the empty name; otherwise the name goes to the
    translator and the call is rejected.  Either way the translator and
    the world are as before. *)
Theorem block_name_label_free (words : list word) (t : translator)
    (w : world) :
  let odiaName := trim (VoterParser.longestOdiaRun
                          (VoterParser.filterLabelWords words)) in
  (forall label, In label labelWords -> includes odiaName label = false)
  /\ VoterParser.extractNameFromWords toLowerCase toUpperCase translate
       (VoterParser.filterLabelWords words) t w
     = (if (length odiaName <? 3)%nat
        then Resolved VoterParser.emptyName
        else Rejected TypeError,
        t, w).
Proof.
  intros odiaName.
  split; [|apply extractNameFromWords_cases].
  intros label Hlabel.
  destruct (includes odiaName label) eqn:Hinc; [exfalso|reflexivity].
  destruct (labelWords_solid label Hlabel) as [Hne Hsolid].
  apply includes_spec, occursIn_trim_inv in Hinc.
  destruct (longestOdiaRun_run
              (fun w => forall label, In label labelWords ->
                                      includes (trim (text w)) label = false)
              (VoterParser.filterLabelWords words))
    as (ws & Hrun & Hws).
  { intros w1 Hw1. apply (filterLabelWords_In words w1 Hw1). }
  rewrite Hrun in Hinc.
  apply occursIn_spacedRun in Hinc as (w1 & Hw1 & Hocc); [|exact Hne|].
  - rewrite Forall_forall in Hws.
    pose proof (Hws w1 (proj2 (list_elem_of_In _ _) Hw1) label Hlabel) as Hfree.
    apply (occursIn_trim _ _ Hne Hsolid), includes_spec in Hocc. congruence.
  - intros H32. apply Hsolid in H32. discriminate.
Qed.

End NameFacts.

(** ** Duplicate rectangles *)

Section FilterFacts.

Variable entry : Type.
Variable rectOf : entry -> Contours.rect.
Variable tolerance : Z.

Let dup (c d : entry) : bool :=
  Contours.isDuplicateRect (rectOf c) (rectOf d) tolerance.

Lemma fold_keep_spec (contours unique : list entry) :
  let result := fold_left (Contours.keep entry rectOf tolerance)
                  contours unique in
  (exists added, result = unique ++ added /\ sublist added contours)
  /\ ((forall i j c d, (i < j)%nat -> unique !! i = Some c ->
         unique !! j = Some d -> dup c d = false) ->
      forall i j c d, (i < j)%nat -> result !! i = Some c ->
        result !! j = Some d -> dup c d = false)
  /\ (forall c, In c contours ->
        exists k, In k result /\ (k = c \/ dup k c = true)).
Proof.
  revert unique. induction contours as [|c0 contours IH]; intros unique.
  { cbn. split; [exists []; split; [rewrite app_nil_r; reflexivity|constructor]|].
    split; [auto|intros c []]. }
  cbn [fold_left].
  assert (Hkeep :
    (Contours.keep entry rectOf tolerance unique c0 = unique
     /\ existsb (fun c => dup c c0) unique = true)
    \/ (Contours.keep entry rectOf tolerance unique c0 = unique ++ [c0]
        /\ existsb (fun c => dup c c0) unique = false)).
  { unfold Contours.keep. fold (dup).
    destruct (existsb _ unique); [left|right]; split; reflexivity. }
  destruct Hkeep as [[-> Hsome]|[-> Hsome]].
  - specialize (IH unique). cbv zeta in IH |- *.
    destruct IH as ((added & Heq & Hsub) & Hpair & Hcover).
    split; [exists added; split; [exact Heq|apply sublist_cons, Hsub]|].
    split; [exact Hpair|].
    intros c [<-|Hc]; [|apply Hcover, Hc].
    apply existsb_exists in Hsome as (k & Hk & Hdup).
    exists k. split; [|right; exact Hdup].
    rewrite Heq. apply in_or_app. left. exact Hk.
  - specialize (IH (unique ++ [c0])). cbv zeta in IH |- *.
    destruct IH as ((added & Heq & Hsub) & Hpair & Hcover).
    split; [exists (c0 :: added); split;
              [rewrite Heq, <- app_assoc; reflexivity|apply sublist_skip, Hsub]|].
    split.
    + intros Huniq. apply Hpair. intros i j c d Hij Hi Hj.
      destruct (decide (j < length unique)%nat) as [Hlt|Hge].
      * rewrite lookup_app_l in Hi by lia. rewrite lookup_app_l in Hj by lia.
        apply (Huniq i j c d Hij Hi Hj).
      * assert (j = length unique) as ->.
        { apply lookup_lt_Some in Hj. rewrite length_app in Hj. simpl in Hj. lia. }
        rewrite lookup_app_l in Hi by lia.
        rewrite list_lookup_middle in Hj by reflexivity.
        assert (d = c0) as -> by congruence.
        rewrite existsb_false_iff in Hsome. apply Hsome.
        apply list_elem_of_In, (list_elem_of_lookup_2 _ _ _ Hi).
    + intros c [<-|Hc]; [|apply Hcover, Hc].
      exists c0. split; [|left; reflexivity].
      rewrite Heq. apply in_or_app. left. apply in_or_app. right. left.
      reflexivity.
Qed.

(** X22.  [filterDuplicateRects] keeps a subsequence of the contours, in
    their order; no kept rectangle is within the tolerance of an earlier
    kept one; and every contour of the input is kept or within the
    tolerance of a kept one. *)
Theorem filterDuplicateRects_spec (contours : list entry) :
  let unique := Contours.filterDuplicateRects entry rectOf contours
                  tolerance in
  sublist unique contours
  /\ (forall i j c d, (i < j)%nat -> unique !! i = Some c ->
        unique !! j = Some d ->
        Contours.isDuplicateRect (rectOf c) (rectOf d) tolerance = false)
  /\ (forall c, In c contours ->
        exists k, In k unique
          /\ (k = c
              \/ Contours.isDuplicateRect (rectOf k) (rectOf c) tolerance
                 = true)).
Proof.
  destruct (fold_keep_spec contours []) as ((added & Heq & Hsub) & Hpair & Hcover).
  cbv zeta. unfold Contours.filterDuplicateRects.
  split; [rewrite Heq; exact Hsub|].
  split; [|exact Hcover].
  apply Hpair. intros i j c d _ Hi. rewrite lookup_nil in Hi. discriminate.
Qed.

End FilterFacts.
